(** * Macenko stain normalization

    A shallow embedding of [src/utils/stainNorm_Macenko.py] and the
    properties of its two functions, [normalize_columns] and
    [normalize_Macenko].

    The program is a straight line of NumPy calls.  Its control flow, its
    array shapes, the in-place writes to the caller's buffers and every
    exception NumPy can raise on the way are modelled here; the numeric
    carrier (float32/float64) and the numeric library routines
    ([np.log], [np.cov], [np.linalg.eigh], [np.linalg.lstsq],
    [np.percentile], ...) are an interface ([Arith], [NumLib]), so that every
    theorem holds for whatever those routines compute.  Two carriers are
    used below: IEEE binary64 ([PrimFloat]), the arithmetic of NumPy's
    float64, in which the properties of [normalize_columns] are stated and
    run, and the real numbers, which with a reference library exhibit
    concrete runs of [normalize_Macenko]. *)

From Stdlib Require Import ZArith List Reals Lra Lia.
From Stdlib Require PrimFloat FloatOps SpecFloat.
From stdpp Require Import base option list gmap sorting.

Set Default Proof Using "Type".

(** ** Exceptions and results *)

(** The exceptions a call can end with.  [ValueError], [IndexError] and
    [LinAlgError] are the ones NumPy raises in this program.  [TypeError]
    is how the model ends a call one of whose arguments names no array of the
    store; the program itself is only defined on arrays, and what Python
    raises for another object depends on that object.  The last four are the
    error kinds named by the design document; the source defines no
    exception of its own. *)
Inductive exn : Set :=
  | ValueError
  | IndexError
  | LinAlgError
  | TypeError
  | DegenerateStainEstimation
  | InvalidImageShape
  | InvalidParameter
  | ZeroColumnNormalization.

(** The exceptions NumPy raises in this program. *)
Definition numpy_exn (e : exn) : Prop :=
  e = ValueError \/ e = IndexError \/ e = LinAlgError.

Inductive res (A : Type) : Type :=
  | Ok (a : A)
  | Raise (e : exn).
Arguments Ok {A} a.
Arguments Raise {A} e.

Definition bind {A B : Type} (m : res A) (k : A -> res B) : res B :=
  match m with
  | Ok a => k a
  | Raise e => Raise e
  end.

(** [orRaise e o]: the value of [o], or the exception [e]. *)
Definition orRaise {A : Type} (e : exn) (o : option A) : res A :=
  match o with
  | Some a => Ok a
  | None => Raise e
  end.

Fixpoint mapM {A B : Type} (f : A -> res B) (l : list A) : res (list B) :=
  match l with
  | [] => Ok []
  | x :: xs => bind (f x) (fun y => bind (mapM f xs) (fun ys => Ok (y :: ys)))
  end.

Declare Scope res_scope.
Delimit Scope res_scope with res.
Notation "'let*' x ':=' m 'in' k" := (bind m (fun x => k))
  (at level 10, x pattern, m at level 100, k at level 200) : res_scope.
Open Scope res_scope.

Definition is_Ok {A : Type} (m : res A) : Prop := exists a, m = Ok a.

(** ** The numeric interface *)

(** Floating-point arithmetic as the program uses it: literals and the
    uint8-to-float conversion ([of_Z]), the four operations, negation, square
    root and the strict comparison. *)
Class Arith (F : Type) : Type := {
  of_Z : Z -> F;
  add : F -> F -> F;
  sub : F -> F -> F;
  mul : F -> F -> F;
  div : F -> F -> F;
  neg : F -> F;
  np_sqrt : F -> F;
  ltb : F -> F -> bool
}.

(** The real number a floating-point datum stands for.  [is_finite] tells
    the numbers from the infinities and NaN, which stand for no real number
    (their [value] is arbitrary). *)
Class Valued (F : Type) : Type := {
  is_finite : F -> bool;
  value : F -> R
}.

(** The library routines the program calls and whose code is NumPy's (libm,
    LAPACK).  [linalg_eigh] and [linalg_lstsq] answer [None] when NumPy raises
    [LinAlgError], [np_percentile] when it raises [ValueError] (a percentile
    outside [0, 100]).  [np_cov c X] is [np.cov(X, rowvar=False)] for [X] with
    [c] columns; [trunc] is the float-to-integer conversion of a cast. *)
Class NumLib (F : Type) : Type := {
  np_log : F -> F;
  np_exp : F -> F;
  np_cos : F -> F;
  np_sin : F -> F;
  np_arctan2 : F -> F -> F;
  trunc : F -> Z;
  np_cov : nat -> list (list F) -> list (list F);
  linalg_eigh : list (list F) -> option (list F * list (list F));
  linalg_lstsq : list (list F) -> list (list F) -> option (list (list F));
  np_percentile : list F -> F -> option F
}.

(** ** Images and the store of caller buffers *)

(** A uint8 array: its shape and its samples in C order. *)
Record ndarray : Set := mk_ndarray {
  shape : list nat;
  data : list Z
}.

Definition loc := nat.

(** [mask = (a == 0); a[mask] = 1] *)
Definition remove_zeros (a : ndarray) : ndarray :=
  {| shape := shape a;
     data := map (fun v => if Z.eqb v 0 then 1%Z else v) (data a) |}.

(** Statements that read or write the caller's arrays: a state and exception
    monad over the store. *)
Definition M (A : Type) : Type := gmap loc ndarray -> res A * gmap loc ndarray.

(** Reading the array an argument refers to.  The program is defined on
    arrays: a location that holds none is outside its domain, and the model
    ends such a call with [TypeError]. *)
Definition load (l : loc) : M ndarray :=
  fun h => (orRaise TypeError (h !! l), h).

Definition store (l : loc) (a : ndarray) : M unit :=
  fun h => (Ok tt, <[l := a]> h).

Definition lift {A : Type} (m : res A) : M A := fun h => (m, h).

Definition bindM {A B : Type} (m : M A) (k : A -> M B) : M B :=
  fun h =>
    match m h with
    | (Ok a, h') => k a h'
    | (Raise e, h') => (Raise e, h')
    end.

Declare Scope M_scope.
Delimit Scope M_scope with M.
Notation "'let*' x ':=' m 'in' k" := (bindM m (fun x => k))
  (at level 10, x pattern, m at level 100, k at level 200) : M_scope.
Notation "m ';;' k" := (bindM m (fun _ => k))
  (at level 100, k at level 200, right associativity) : M_scope.

(** ** Array operations *)

Section Arrays.
Context {F : Type} `{Arith F}.

Definition zero : F := of_Z 0.

(** [np.add.reduce] along one axis: the elements are added from the first
    on; an empty sum is 0. *)
Definition add_reduce (l : list F) : F :=
  match l with
  | [] => zero
  | x :: xs => fold_left add xs x
  end.

(** [A[:, j]] of a matrix given by its rows. *)
Definition col (j : nat) (A : list (list F)) : list F :=
  map (fun r => nth j r zero) A.

(** Number of columns of a matrix that has a row. *)
Definition ncols (A : list (list F)) : nat :=
  match A with
  | [] => 0
  | r :: _ => length r
  end.

(** [A.T] for [A] with [n] columns. *)
Definition transpose (n : nat) (A : list (list F)) : list (list F) :=
  map (fun j => col j A) (seq 0 n).

(** [np.reshape(a, (n, c))] of a flat buffer of [n * c] samples. *)
Definition reshape2 (n c : nat) (a : list F) : list (list F) :=
  map (fun i => take c (drop (i * c) a)) (seq 0 n).

(** An [n] by [c] matrix. *)
Definition has_shape (n c : nat) (A : list (list F)) : Prop :=
  length A = n /\ Forall (fun r => length r = c) A.

Definition dotv (x y : list F) : F := add_reduce (zip_with mul x y).

(** [np.dot(A, B)] for two matrices: the inner dimensions must agree. *)
Definition np_dot (A B : list (list F)) : res (list (list F)) :=
  if forallb (fun a => Nat.eqb (length a) (length B)) A
  then Ok (map (fun a => map (fun j => dotv a (col j B)) (seq 0 (ncols B))) A)
  else Raise ValueError.

(** [np.dot(A, v)] for a matrix and a vector. *)
Definition np_dot_vec (A : list (list F)) (v : list F) : res (list F) :=
  if forallb (fun a => Nat.eqb (length a) (length v)) A
  then Ok (map (fun a => dotv a v) A)
  else Raise ValueError.

(** [np.cross(u, v)] for two vectors of dimension 3.  NumPy refuses every
    other dimension but 2, for which it returns a scalar that the next
    statement, [np.array([v1, v2, v3])], refuses: [ValueError] either way. *)
Definition np_cross (u v : list F) : res (list F) :=
  match u, v with
  | [u0; u1; u2], [v0; v1; v2] =>
      Ok [sub (mul u1 v2) (mul u2 v1);
          sub (mul u2 v0) (mul u0 v2);
          sub (mul u0 v1) (mul u1 v0)]
  | _, _ => Raise ValueError
  end.

(** [v[i]] *)
Definition item (v : list F) (i : nat) : res F := orRaise IndexError (v !! i).

(** [A[i, j]] *)
Definition item2 (A : list (list F)) (i j : nat) : res F :=
  let* r := orRaise IndexError (A !! i) in item r j.

(** [A[:, [2, 1]]] *)
Definition take_cols_2_1 (A : list (list F)) : res (list (list F)) :=
  mapM (fun r => let* a := item r 2 in let* b := item r 1 in Ok [a; b]) A.

(** [A[:, j] *= -1] *)
Definition negate_col (j : nat) (A : list (list F)) : list (list F) :=
  map (fun r => alter (fun x => mul x (of_Z (-1))) j r) A.

(** [np.linalg.norm(A, axis=0)]: the square root of the sum of the squares
    down each column. *)
Definition linalg_norm_axis0 (A : list (list F)) : list F :=
  map (fun j => np_sqrt (add_reduce (map (fun x => mul x x) (col j A))))
      (seq 0 (ncols A)).

(** [normalize_columns(A)]: [A / np.linalg.norm(A, axis=0)], the division
    broadcast along the rows. *)
Definition normalize_columns (A : list (list F)) : res (list (list F)) :=
  let n := linalg_norm_axis0 A in
  Ok (map (fun r => zip_with div r n) A).

(** [np.clip(x, 0, 255)] *)
Definition clip (x : F) : F :=
  if ltb x (of_Z 0) then of_Z 0
  else if ltb (of_Z 255) x then of_Z 255
  else x.

End Arrays.

(** ** The program *)

Section Program.
Context {F : Type} `{Arith F} `{NumLib F}.

(** [a.astype(np.float32)] on the samples of a uint8 array. *)
Definition astype_float (a : list Z) : list F := map of_Z a.

(** [np.array(x, dtype=np.uint8)] on one sample: the float is converted to
    an integer, of which the low 8 bits are kept. *)
Definition astype_uint8 (x : F) : Z := Z.modulo (trunc x) 256.

(** [- np.log(I / Io)] *)
Definition optical_density (Io : F) (I : list (list F)) : list (list F) :=
  map (map (fun x => neg (np_log (div x Io)))) I.

(** [(OD > beta).any(axis=1)] on one row. *)
Definition above (beta : F) (r : list F) : bool := existsb (fun x => ltb beta x) r.

(** [OD[(OD > beta).any(axis=1), :]]: the Foreground Sample Set. *)
Definition foreground (beta : F) (OD : list (list F)) : list (list F) :=
  List.filter (above beta) OD.

(** The optical density of the patch of a call, as line 48 computes it. *)
Definition patch_OD (Io : F) (h w c : nat) (p : ndarray) : list (list F) :=
  optical_density Io (reshape2 (h * w) c (astype_float (data (remove_zeros p)))).

(** [if V[0, j] < 0: V[:, j] *= -1] *)
Definition fix_sign (j : nat) (V : list (list F)) : res (list (list F)) :=
  let* x := item2 V 0 j in
  Ok (if ltb x zero then negate_col j V else V).

(** [np.arctan2(That[:, 1], That[:, 0])] *)
Definition angles (That : list (list F)) : res (list F) :=
  mapM (fun r => let* y := item r 1 in let* x := item r 0 in Ok (np_arctan2 y x)) That.

(** The stain matrix of one image, from its optical density [OD] with [c]
    columns: lines 49-65 of the source for the patch, and the same
    statements again at lines 69-85 for the target. *)
Definition stain_matrix (c : nat) (OD : list (list F)) (beta alpha : F)
  : res (list (list F)) :=
  let ODhat := foreground beta OD in
  let* wV := orRaise LinAlgError (linalg_eigh (np_cov c ODhat)) in
  let V := wV.2 in
  let* V := take_cols_2_1 V in
  let* V := fix_sign 0 V in
  let* V := fix_sign 1 V in
  let* That := np_dot ODhat V in
  let* phi := angles That in
  let* minPhi := orRaise ValueError (np_percentile phi alpha) in
  let* maxPhi := orRaise ValueError (np_percentile phi (sub (of_Z 100) alpha)) in
  let* v1 := np_dot_vec V [np_cos minPhi; np_sin minPhi] in
  let* v2 := np_dot_vec V [np_cos maxPhi; np_sin maxPhi] in
  let* v3 := np_cross v1 v2 in
  let* a := item v1 0 in
  let* b := item v2 0 in
  let HE := if ltb b a then transpose 3 [v1; v2; v3]
            else transpose 3 [v2; v1; v3] in
  normalize_columns HE.

(** [(h, w, c) = np.shape(patch)] *)
Definition unpack3 (s : list nat) : res (nat * nat * nat) :=
  match s with
  | [h; w; c] => Ok (h, w, c)
  | _ => Raise ValueError
  end.

(** [np.reshape(targetImg, (-1, 3))] *)
Definition reshape_rows_of_3 (a : list F) : res (list (list F)) :=
  if Nat.eqb (length a mod 3) 0 then Ok (reshape2 (length a / 3) 3 a)
  else Raise ValueError.

(** [np.percentile(C, 99, axis=1).reshape((3, 1))] followed by
    [maxC[2] = 1]. *)
Definition max_concentration (C : list (list F)) : res (list F) :=
  let* m := mapM (fun r => orRaise ValueError (np_percentile r (of_Z 99))) C in
  if Nat.eqb (length m) 3 then Ok (<[2 := of_Z 1]> m) else Raise ValueError.

(** [C * maxC_target / maxC], the two (3, 1) columns broadcast along the
    rows of [C]. *)
Definition rescale (C : list (list F)) (maxC_target maxC : list F) : list (list F) :=
  zip_with (fun r mm => map (fun x => div (mul x mm.1) mm.2) r)
           C (zip maxC_target maxC).

(** Lines 93-100: the intensity normalization of the concentrations. *)
Definition modify_concentrations (C : list (list F)) (HE_target OD_target : list (list F))
  : res (list (list F)) :=
  let* maxC := max_concentration C in
  let Y_target := transpose 3 OD_target in
  let* C_target := orRaise LinAlgError (linalg_lstsq HE_target Y_target) in
  let* maxC_target := max_concentration C_target in
  Ok (rescale C maxC_target maxC).

(** [np.reshape(a, (h, w, c))] of a matrix, followed by the clip and the
    cast to uint8. *)
Definition tidy_up (h w c : nat) (Inorm : list (list F)) : res ndarray :=
  let flat := concat Inorm in
  if Nat.eqb (length flat) (h * w * c)
  then Ok {| shape := [h; w; c]; data := map (fun x => astype_uint8 (clip x)) flat |}
  else Raise ValueError.

(** Lines 46-108 of [normalize_Macenko], on the float copies of the two
    images: [s] is the shape of the patch. *)
Definition macenko (s : list nat) (patch targetImg : list F)
    (Io beta alpha : F) (intensity_norm : bool) : res ndarray :=
  (* Get source stain matrix *)
  let* hwc := unpack3 s in
  let h := hwc.1.1 in
  let w := hwc.1.2 in
  let c := hwc.2 in
  let patch := reshape2 (h * w) c patch in
  let OD := optical_density Io patch in
  let* HE := stain_matrix c OD beta alpha in
  (* Get target stain matrix *)
  let* targetImg := reshape_rows_of_3 targetImg in
  let OD_target := optical_density Io targetImg in
  let* HE_target := stain_matrix 3 OD_target beta alpha in
  (* Get source concentrations *)
  let Y := transpose c OD in
  let* C := orRaise LinAlgError (linalg_lstsq HE Y) in
  (* Modify concentrations *)
  let* C := if intensity_norm then modify_concentrations C HE_target OD_target
            else Ok C in
  (* Final tidy up *)
  let* P := np_dot HE_target C in
  let Inorm := map (map (fun x => mul Io (np_exp (neg x)))) P in
  tidy_up h w c (transpose (ncols Inorm) Inorm).

(** [normalize_Macenko(patch, targetImg, Io, beta, alpha, intensity_norm)]:
    the two arguments are references to arrays of the caller.  Lines 37-43
    write to those arrays and then take float copies; the rest works on the
    copies. *)
Definition normalize_Macenko (patch targetImg : loc)
    (Io beta alpha : F) (intensity_norm : bool) : M ndarray :=
  (let* p := load patch in
   store patch (remove_zeros p);;
   let* p := load patch in
   let patchf := astype_float (data p) in
   let* t := load targetImg in
   store targetImg (remove_zeros t);;
   let* t := load targetImg in
   let targetf := astype_float (data t) in
   lift (macenko (shape p) patchf targetf Io beta alpha intensity_norm))%M.

End Program.

(** ** Carriers *)

(** IEEE 754 binary64, the arithmetic of NumPy's float64: the operations of
    [PrimFloat] are the processor's. *)
Module Binary64.
Import PrimFloat.

Fixpoint of_pos (p : positive) : float :=
  match p with
  | xH => 1%float
  | xO q => PrimFloat.mul 2%float (of_pos q)
  | xI q => PrimFloat.add (PrimFloat.mul 2%float (of_pos q)) 1%float
  end.

Definition float_of_Z (z : Z) : float :=
  match z with
  | Z0 => 0%float
  | Zpos p => of_pos p
  | Zneg p => PrimFloat.opp (of_pos p)
  end.

#[export] Instance arith : Arith float :=
  Build_Arith float float_of_Z PrimFloat.add PrimFloat.sub PrimFloat.mul
              PrimFloat.div PrimFloat.opp PrimFloat.sqrt PrimFloat.ltb.

(** 2 to the power 600, as a float. *)
Definition huge : float := 0x1p+600%float.

(** 2 to the power -53, as a float: half the distance from 1 to the next
    float. *)
Definition half_ulp : float := 0x1p-53%float.

(** The real number [(-1)^s * m * 2^e] of a finite float of sign [s],
    mantissa [m] and exponent [e]. *)
Definition SF2R (x : SpecFloat.spec_float) : R :=
  match x with
  | SpecFloat.S754_finite s m e =>
      let z := if s then Zneg m else Zpos m in
      if (e <? 0)%Z then (IZR z / IZR (2 ^ (- e)))%R else IZR (z * 2 ^ e)
  | _ => 0%R
  end.

#[export] Instance valued : Valued float :=
  Build_Valued float PrimFloat.is_finite (fun x => SF2R (FloatOps.Prim2SF x)).

(** The unit roundoff of binary64 when rounding to nearest: 2 to the power
    -53. *)
Definition unit_roundoff : R := (/ 9007199254740992)%R.

End Binary64.

(** Exact arithmetic: the real numbers, the carrier of the reference library
    below. *)
Module Exact.

#[export] Instance arith : Arith R := {|
  of_Z := IZR;
  add := Rplus;
  sub := Rminus;
  mul := Rmult;
  div := Rdiv;
  neg := Ropp;
  np_sqrt := sqrt;
  ltb := fun x y => if Rlt_dec x y then true else false
|}.

(** The Euclidean norm of a vector, and its square. *)
Definition sumsq (v : list R) : R := fold_right Rplus 0%R (map (fun x => (x * x)%R) v).

Definition norm2 (v : list R) : R := sqrt (fold_right Rplus 0%R (map (fun x => (x * x)%R) v)).

End Exact.

(** A reference numeric library over the reals, used to exhibit concrete
    runs.  The elementary functions are those of the real numbers;
    [np_cov] and [np_percentile] follow NumPy's definitions (sample
    covariance with [N - 1] in the denominator, percentile by linear
    interpolation between the two nearest ranks); [linalg_lstsq] solves a
    3 by 3 system by Cramer's rule, one right-hand side at a time;
    [linalg_eigh] answers the diagonal and the identity, the decomposition of
    a diagonal matrix.  Every theorem below is proved for all libraries: this
    one only shows that their hypotheses can be met. *)
Module Reference.
Import Exact.
Local Open Scope R_scope.

#[export] Instance Rle_rel_dec : RelDecision Rle := Rle_dec.

Definition Rsum (l : list R) : R := fold_right Rplus 0 l.

Definition arctan2 (y x : R) : R :=
  if Rlt_dec 0 x then atan (y / x)
  else if Rlt_dec x 0 then
    (if Rlt_dec y 0 then atan (y / x) - PI else atan (y / x) + PI)
  else if Rlt_dec 0 y then PI / 2
  else if Rlt_dec y 0 then - (PI / 2)
  else 0.

(** Rounding toward zero. *)
Definition truncate (x : R) : Z :=
  if Rle_dec 0 x then Int_part x else (- Int_part (- x))%Z.

Definition mean (j : nat) (X : list (list R)) : R :=
  Rsum (col j X) / INR (length X).

Definition cov (c : nat) (X : list (list R)) : list (list R) :=
  map (fun j =>
    map (fun l =>
      Rsum (map (fun r => (nth j r 0 - mean j X) * (nth l r 0 - mean l X)) X)
      / (INR (length X) - 1))
    (seq 0 c))
  (seq 0 c).

Definition identity (n : nat) : list (list R) :=
  map (fun i => map (fun j => if Nat.eqb i j then 1 else 0) (seq 0 n)) (seq 0 n).

Definition eigh (A : list (list R)) : option (list R * list (list R)) :=
  Some (map (fun i => nth i (nth i A []) 0) (seq 0 (length A)), identity (length A)).

Definition det3 (a b c d e f g h i : R) : R :=
  a * (e * i - f * h) - b * (d * i - f * g) + c * (d * h - e * g).

(** The solution of [A x = y] for one right-hand side [y = (y0, y1, y2)]. *)
Definition solve3 (a b c d e f g h i : R) (y : list R) : list R :=
  let y0 := nth 0 y 0 in
  let y1 := nth 1 y 0 in
  let y2 := nth 2 y 0 in
  let dt := det3 a b c d e f g h i in
  [ det3 y0 b c y1 e f y2 h i / dt;
    det3 a y0 c d y1 f g y2 i / dt;
    det3 a b y0 d e y1 g h y2 / dt ].

Definition lstsq (A B : list (list R)) : option (list (list R)) :=
  match A with
  | [[a; b; c]; [d; e; f]; [g; h; i]] =>
      if Nat.eqb (length B) 3
      then Some (transpose 3 (map (solve3 a b c d e f g h i) (transpose (ncols B) B)))
      else None
  | _ => None
  end.

Definition percentile (l : list R) (q : R) : option R :=
  if Rle_dec 0 q then
    if Rle_dec q 100 then
      let s := merge_sort Rle l in
      let r := q / 100 * (INR (length s) - 1) in
      let i := Z.to_nat (Int_part r) in
      let lo := nth i s 0 in
      let hi := nth (S i) s lo in
      Some (lo + (hi - lo) * frac_part r)
    else None
  else None.

#[export] Instance numlib : NumLib R := {|
  np_log := ln;
  np_exp := exp;
  np_cos := cos;
  np_sin := sin;
  np_arctan2 := arctan2;
  trunc := truncate;
  np_cov := cov;
  linalg_eigh := eigh;
  linalg_lstsq := lstsq;
  np_percentile := percentile
|}.

End Reference.

(** ** Rounding *)

(** What IEEE 754 arithmetic promises of an operation that neither overflows
    nor underflows: the result is a finite number within relative error [u]
    of the exact result on the values of the operands ([u] is 2^-53 for
    binary64 rounded to nearest).  The predicates below say this of each
    operation that [normalize_columns] performs on one column: the squares,
    the additions of [np.add.reduce] from the first square on, the square
    root, and the quotients. *)
Section Rounding.
Context {F : Type} `{Arith F} `{Valued F}.
Local Open Scope R_scope.

Definition rounds (u exact : R) (x : F) : Prop :=
  is_finite x = true /\ Rabs (value x - exact) <= u * Rabs exact.

Fixpoint sum_rounds (u : R) (acc : F) (l : list F) : Prop :=
  match l with
  | [] => True
  | q :: l => rounds u (value acc + value q) (add acc q) /\ sum_rounds u (add acc q) l
  end.

Definition add_reduce_rounds (u : R) (l : list F) : Prop :=
  match l with
  | [] => True
  | q :: l => sum_rounds u q l
  end.

Definition column_rounds (u : R) (v : list F) : Prop :=
  let squares := map (fun x => mul x x) v in
  let s := add_reduce squares in
  Forall (fun x => rounds u (value x * value x) (mul x x)) v /\
  add_reduce_rounds u squares /\
  rounds u (sqrt (value s)) (np_sqrt s) /\
  Forall (fun x => rounds u (value x / value (np_sqrt s)) (div x (np_sqrt s))) v.

End Rounding.

(** ** Assumptions on the numeric library, where a theorem needs one *)

Section Laws.
Context {F : Type} `{Arith F} `{NumLib F}.

(** The library returns arrays of the documented shapes: a [c] by [c]
    covariance, eigenvectors of the size of the decomposed matrix, a solution
    with one row per column of [A] and one column per right-hand side. *)
Definition lib_shapes : Prop :=
  (forall c X, has_shape c c (np_cov c X)) /\
  (forall A w V, linalg_eigh A = Some (w, V) -> has_shape (length A) (length A) V) /\
  (forall A B X n k, has_shape n n A -> has_shape n k B ->
                     linalg_lstsq A B = Some X -> has_shape n k X).

(** The solvers converge on every 3 by 3 problem, and the percentile [q] is
    accepted. *)
Definition solvers_converge : Prop :=
  (forall A, has_shape 3 3 A -> base.is_Some (linalg_eigh A)) /\
  (forall A B k, has_shape 3 3 A -> has_shape 3 k B -> base.is_Some (linalg_lstsq A B)).

Definition percentile_accepts (q : F) : Prop :=
  forall l, base.is_Some (np_percentile l q).

(** Two optional matrices that agree row by row up to the order of the
    entries of each row. *)
Definition rows_permuted (X Y : option (list (list F))) : Prop :=
  match X, Y with
  | Some X, Some Y => Forall2 Permutation X Y
  | None, None => True
  | _, _ => False
  end.

(** The library's statistics do not depend on the order of the samples:
    the covariance and the percentile are functions of the multiset of
    samples, and the least-squares solver treats each right-hand side
    (each column of [B]) on its own.  This is a law of exact arithmetic: a
    floating-point sum depends on the order of its terms, and a covariance
    computed in binary64 need not meet it. *)
Definition order_free : Prop :=
  (forall c X X', X ≡ₚ X' -> np_cov c X = np_cov c X') /\
  (forall l l' q, l ≡ₚ l' -> np_percentile l q = np_percentile l' q) /\
  (forall A X X' k, has_shape k 3 X -> X ≡ₚ X' ->
     rows_permuted (linalg_lstsq A (transpose 3 X)) (linalg_lstsq A (transpose 3 X'))).

End Laws.

(** The pixels of an image: its samples in rows of three. *)
Definition pixels (a : ndarray) : list (list Z) :=
  reshape2 (length (data a) / 3) 3 (data a).

(** An array holds as many samples as its shape says. *)
Definition well_formed (a : ndarray) : Prop :=
  length (data a) = fold_right Nat.mul 1 (shape a).

(** ** Stores for the worked runs *)

(** A store with a patch that holds a zero sample, and a target. *)
Definition example_store : gmap loc ndarray :=
  <[0 := {| shape := [1; 1; 3]; data := [0; 128; 255]%Z |}]>
  (<[1 := {| shape := [1; 1; 3]; data := [200; 100; 50]%Z |}]> ∅).

(** [example_store] with one more array in it. *)
Definition example_store_bis : gmap loc ndarray :=
  <[7 := {| shape := [2]; data := [0; 9]%Z |}]> example_store.

(** A store whose patch is one white pixel, which has no foreground sample. *)
Definition white_store : gmap loc ndarray :=
  <[0 := {| shape := [1; 1; 3]; data := [255; 255; 255]%Z |}]>
  (<[1 := {| shape := [1; 1; 3]; data := [200; 100; 50]%Z |}]> ∅).

(** A store whose patch and target have four channels. *)
Definition rgba_store : gmap loc ndarray :=
  <[0 := {| shape := [1; 1; 4]; data := [10; 20; 30; 255]%Z |}]>
  (<[1 := {| shape := [1; 2; 4];
             data := [200; 100; 50; 255; 90; 80; 70; 255]%Z |}]> ∅).

(** A store whose target has two pixels. *)
Definition two_pixel_store : gmap loc ndarray :=
  <[0 := {| shape := [1; 1; 3]; data := [0; 128; 255]%Z |}]>
  (<[1 := {| shape := [1; 2; 3]; data := [200; 100; 50; 90; 80; 70]%Z |}]> ∅).

(** A store that holds the same image twice. *)
Definition twin_store : gmap loc ndarray :=
  <[0 := {| shape := [1; 1; 3]; data := [0; 128; 255]%Z |}]>
  (<[1 := {| shape := [1; 1; 3]; data := [0; 128; 255]%Z |}]> ∅).

(** A store whose target has four samples, not a multiple of three. *)
Definition ragged_store : gmap loc ndarray :=
  <[0 := {| shape := [1; 1; 3]; data := [0; 128; 255]%Z |}]>
  (<[1 := {| shape := [2; 2]; data := [200; 100; 50; 90]%Z |}]> ∅).

(** * Properties *)

Import Binary64 Exact Reference.

(** ** Generic facts on results and lists *)

Lemma bind_Ok {A B : Type} (m : res A) (k : A -> res B) (b : B) :
  bind m k = Ok b -> exists a, m = Ok a /\ k a = Ok b.
Proof. destruct m as [a|e]; simpl; [eauto | discriminate]. Qed.

Lemma bind_Raise {A B : Type} (m : res A) (k : A -> res B) (e : exn) :
  bind m k = Raise e -> m = Raise e \/ exists a, m = Ok a /\ k a = Raise e.
Proof. destruct m as [a|e']; simpl; [eauto | intros [= ->]; auto]. Qed.

Lemma mapM_Ok_length {A B : Type} (f : A -> res B) (l : list A) (r : list B) :
  mapM f l = Ok r -> length r = length l.
Proof.
  revert r. induction l as [|x xs IH]; simpl; intros r Hr.
  - by injection Hr as <-.
  - apply bind_Ok in Hr as (y & _ & Hr). apply bind_Ok in Hr as (ys & Hys & Hr).
    injection Hr as <-. simpl. f_equal. by apply IH.
Qed.

Lemma mapM_Ok_Forall2 {A B : Type} (f : A -> res B) (l : list A) (r : list B) :
  mapM f l = Ok r -> Forall2 (fun x y => f x = Ok y) l r.
Proof.
  revert r. induction l as [|x xs IH]; simpl; intros r Hr.
  - injection Hr as <-. constructor.
  - apply bind_Ok in Hr as (y & Hy & Hr). apply bind_Ok in Hr as (ys & Hys & Hr).
    injection Hr as <-. constructor; auto.
Qed.

Lemma mapM_total {A B : Type} (f : A -> res B) (l : list A) :
  Forall (fun x => is_Ok (f x)) l -> is_Ok (mapM f l).
Proof.
  induction 1 as [|x xs [y Hy] _ [ys Hys]]; simpl.
  - by exists [].
  - exists (y :: ys). by rewrite Hy; simpl; rewrite Hys.
Qed.

Lemma mapM_Raise {A B : Type} (f : A -> res B) (l : list A) (e : exn) :
  mapM f l = Raise e -> exists x, f x = Raise e.
Proof.
  induction l as [|x xs IH]; simpl; intros Hl; [discriminate|].
  apply bind_Raise in Hl as [Hl|(a & _ & Hl)]; [eauto|].
  apply bind_Raise in Hl as [Hl|(a' & _ & Hl)]; [eauto|discriminate].
Qed.

(** All failures of [f] being the exception [e], [mapM f] fails with [e] or
    succeeds, and this does not depend on the order of the list. *)
Lemma mapM_Permutation {A B : Type} (f : A -> res B) (e : exn) (l l' : list A) :
  (forall x e', f x = Raise e' -> e' = e) ->
  l ≡ₚ l' ->
  (mapM f l = Raise e /\ mapM f l' = Raise e) \/
  (exists r r', mapM f l = Ok r /\ mapM f l' = Ok r' /\ r ≡ₚ r').
Proof.
  intros Hf. induction 1 as [|x l l' Hp IH|x y l|l l' l'' Hp1 IH1 Hp2 IH2]; simpl.
  - right. by exists [], [].
  - destruct (f x) as [b|e'] eqn:Hx; simpl.
    + destruct IH as [[-> ->]|(r & r' & -> & -> & Hr)]; simpl; [by left|].
      right. exists (b :: r), (b :: r'). split_and!; [done..|]. by constructor.
    + left. by rewrite (Hf _ _ Hx).
  - destruct (f x) as [b|e1] eqn:Hx, (f y) as [b'|e2] eqn:Hy; simpl;
      try (left; rewrite ?(Hf _ _ Hx), ?(Hf _ _ Hy); done).
    + destruct (mapM f l) as [r|e3] eqn:Hl; simpl.
      * right. exists (b' :: b :: r), (b :: b' :: r). split_and!; [done..|].
        apply perm_swap.
      * left. apply mapM_Raise in Hl as (z & Hz). by rewrite (Hf _ _ Hz).
  - destruct IH1 as [[-> H1]|(r & r' & -> & H1 & Hr)].
    + left. destruct IH2 as [[_ ->]|(? & ? & H2 & _)]; [done|congruence].
    + destruct IH2 as [[H2 _]|(r2 & r2' & H2 & -> & Hr2)]; [congruence|].
      right. exists r, r2'. split_and!; [done..|].
      rewrite H1 in H2. injection H2 as <-. by etrans.
Qed.

(** ** Shapes of the array operations *)

Section Shapes.
Context {F : Type} `{Arith F}.

Lemma nth_map_seq {B : Type} (f : nat -> B) (n j : nat) (d : B) :
  j < n -> nth j (map f (seq 0 n)) d = f j.
Proof.
  intros Hj. rewrite nth_lookup, list_lookup_fmap, lookup_seq_lt by done. done.
Qed.

Lemma nth_zip_with {A B C : Type} (f : A -> B -> C) (l : list A) (k : list B)
    (j : nat) (a : A) (b : B) (c : C) :
  j < length l -> j < length k ->
  nth j (zip_with f l k) c = f (nth j l a) (nth j k b).
Proof.
  revert k j. induction l as [|x l IH]; intros [|y k] [|j]; simpl; try lia; auto.
  intros ? ?. apply IH; lia.
Qed.

Lemma has_shape_nil (c : nat) : has_shape 0 c ([] : list (list F)).
Proof. split; [done | constructor]. Qed.

Lemma has_shape_cons (n c : nat) (r : list F) (A : list (list F)) :
  has_shape (S n) c (r :: A) <-> length r = c /\ has_shape n c A.
Proof.
  unfold has_shape. simpl. rewrite Forall_cons. intuition lia.
Qed.

Lemma has_shape_ncols (n c : nat) (A : list (list F)) :
  has_shape n c A -> 0 < n -> ncols A = c.
Proof.
  intros [Hn HA] Hpos. destruct A as [|r A]; simpl in *; [lia|].
  by apply Forall_cons in HA as [? _].
Qed.

Lemma has_shape_row (n c : nat) (A : list (list F)) (r : list F) :
  has_shape n c A -> r ∈ A -> length r = c.
Proof. intros [_ HA] Hr. by eapply Forall_forall in HA. Qed.

Lemma has_shape_map (n c : nat) (f : list F -> list F) (A : list (list F)) :
  has_shape n c A -> (forall r, length r = c -> length (f r) = c) ->
  has_shape n c (map f A).
Proof.
  intros [Hn HA] Hf. split; [by rewrite length_map|].
  apply Forall_fmap. eapply Forall_impl; [exact HA|]. simpl. auto.
Qed.

Lemma has_shape_transpose (n : nat) (A : list (list F)) :
  has_shape n (length A) (transpose n A).
Proof.
  split; unfold transpose; [by rewrite length_map, length_seq|].
  apply Forall_fmap, Forall_forall. intros j _. simpl. unfold col.
  by rewrite length_map.
Qed.

Lemma length_col (j : nat) (A : list (list F)) : length (col j A) = length A.
Proof. unfold col. by rewrite length_map. Qed.

Lemma has_shape_reshape2 (n c : nat) (a : list F) :
  n * c <= length a -> has_shape n c (reshape2 n c a).
Proof.
  intros Hlen. split; unfold reshape2; [by rewrite length_map, length_seq|].
  apply Forall_fmap, Forall_forall. intros i Hi%elem_of_seq. simpl.
  rewrite length_take, length_drop. nia.
Qed.

Lemma length_linalg_norm_axis0 (A : list (list F)) :
  length (linalg_norm_axis0 A) = ncols A.
Proof. unfold linalg_norm_axis0. by rewrite length_map, length_seq. Qed.

(** [normalize_columns] raises nothing and keeps the shape. *)
Lemma normalize_columns_shape (n c : nat) (A : list (list F)) :
  has_shape n c A ->
  exists B, normalize_columns A = Ok B /\ has_shape n c B.
Proof.
  intros HA. eexists. split; [reflexivity|].
  destruct n as [|n].
  - destruct HA as [HA _]. apply nil_length_inv in HA as ->. apply has_shape_nil.
  - apply has_shape_map; [done|]. intros r Hr.
    rewrite length_zip_with, length_linalg_norm_axis0.
    rewrite (has_shape_ncols (S n) c) by (done || lia). lia.
Qed.

(** Column [j] of [A / norm(A, axis=0)] is column [j] of [A] divided by the
    norm computed for that column. *)
Lemma normalize_columns_col (n c j : nat) (A B : list (list F)) :
  has_shape n c A -> j < c -> normalize_columns A = Ok B ->
  col j B =
    map (fun x => div x (np_sqrt (add_reduce (map (fun y => mul y y) (col j A)))))
        (col j A).
Proof.
  intros HA Hj [= <-]. unfold col at 1 3. rewrite !map_map.
  apply map_ext_in. intros r Hr%list_elem_of_In.
  assert (0 < n) as Hn.
  { destruct HA as [<- _]. destruct A; [by apply elem_of_nil in Hr | simpl; lia]. }
  pose proof (has_shape_row _ _ _ _ HA Hr) as Hlen.
  pose proof (has_shape_ncols _ _ _ HA Hn) as Hc.
  rewrite (nth_zip_with div r (linalg_norm_axis0 A) j zero zero)
    by (rewrite ?length_linalg_norm_axis0; lia).
  f_equal. unfold linalg_norm_axis0. rewrite Hc. by rewrite nth_map_seq.
Qed.

End Shapes.

(** ** [normalize_columns] *)

Section ZeroColumn.
Context {F : Type} `{Arith F}.
Hypothesis mul_zero : mul zero zero = zero.
Hypothesis add_zero : add zero zero = zero.

Lemma add_reduce_zeros (n : nat) :
  add_reduce (map (fun y => mul y y) (replicate n zero)) = zero.
Proof using mul_zero add_zero.
  destruct n as [|n]; simpl; [done|]. rewrite mul_zero.
  induction n as [|n IH]; simpl; [done|]. by rewrite mul_zero, add_zero.
Qed.

(** C9, as the code has it: a matrix with an all-zero column is not
    refused.  [normalize_columns] raises nothing and returns a matrix of the
    same shape, in which every entry of that column is the quotient
    [0 / sqrt 0] of the arithmetic (NaN in binary64). *)
Theorem normalize_columns_zero_column (n c j : nat) (A : list (list F)) :
  has_shape n c A -> j < c -> Forall (fun x => x = zero) (col j A) ->
  exists B, normalize_columns A = Ok B /\ has_shape n c B /\
            col j B = replicate n (div zero (np_sqrt zero)).
Proof using mul_zero add_zero.
  intros HA Hj Hz.
  destruct (normalize_columns_shape n c A HA) as (B & HB & Hshape).
  exists B. split_and!; [done..|].
  rewrite (normalize_columns_col n c j A B) by done.
  assert (col j A = replicate n zero) as ->.
  { destruct HA as [<- _]. rewrite <- (length_col j A).
    clear -Hz. induction Hz as [|x l -> _ IH]; simpl; [done | by f_equal]. }
  rewrite add_reduce_zeros. clear. induction n; simpl; [done | by f_equal].
Qed.

End ZeroColumn.

(** The run of the theorem above in binary64: the first column of the matrix
    is zero, and the call returns that column filled with NaN. *)
Lemma normalize_columns_zero_column_witness :
  exists B, normalize_columns [[of_Z 0; of_Z 3]; [of_Z 0; of_Z 4]] = Ok B /\
            has_shape 2 2 B /\
            col 0 B = replicate 2 (div (zero : PrimFloat.float) (np_sqrt zero)).
Proof.
  apply (normalize_columns_zero_column (F := PrimFloat.float)).
  - vm_compute. reflexivity.
  - vm_compute. reflexivity.
  - split; [reflexivity | repeat constructor].
  - lia.
  - repeat constructor.
Defined.

(** C9 fails on the code: the first column of this binary64 matrix is zero,
    and [normalize_columns] returns a matrix (whose first column is NaN)
    instead of raising [ZeroColumnNormalization]. *)
Lemma normalize_columns_zero_column_returns :
  Forall (fun x => x = of_Z 0) (col 0 [[of_Z 0; of_Z 3]; [of_Z 0; of_Z 4]]) /\
  normalize_columns [[of_Z 0; of_Z 3]; [of_Z 0; of_Z 4]]
    = Ok [[PrimFloat.nan; PrimFloat.div (of_Z 3) (of_Z 5)];
          [PrimFloat.nan; PrimFloat.div (of_Z 4) (of_Z 5)]] /\
  normalize_columns [[of_Z 0; of_Z 3]; [of_Z 0; of_Z 4]]
    <> (Raise ZeroColumnNormalization : res (list (list PrimFloat.float))).
Proof.
  split_and!.
  - repeat constructor.
  - vm_compute. reflexivity.
  - discriminate.
Qed.

(** C5 fails on the code in binary64: the only column of this matrix is not
    zero, its square overflows, the computed norm is infinite and the
    returned column is zero, of norm 0. *)
Lemma normalize_columns_overflow :
  Binary64.huge <> of_Z 0 /\
  normalize_columns [[Binary64.huge]] = Ok [[of_Z 0]] /\
  linalg_norm_axis0 [[of_Z 0 : PrimFloat.float]] = [of_Z 0].
Proof.
  split_and!.
  - intros Heq. assert (PrimFloat.ltb (of_Z 0) Binary64.huge = true) as Hlt by reflexivity.
    rewrite Heq in Hlt. vm_compute in Hlt. discriminate.
  - vm_compute. reflexivity.
  - vm_compute. reflexivity.
Qed.

(** *** Rounding errors *)

Section RoundingErrors.
Context {F : Type} `{Arith F} `{Valued F}.
Local Open Scope R_scope.

Lemma sumsq_cons (x : R) (v : list R) : sumsq (x :: v) = x * x + sumsq v.
Proof. reflexivity. Qed.

Lemma sumsq_nonneg (v : list R) : 0 <= sumsq v.
Proof. induction v as [|x v IH]; [unfold sumsq; simpl; lra|]. rewrite sumsq_cons. nra. Qed.

Lemma sumsq_pos (v : list R) : (exists x, x ∈ v /\ x <> 0) -> 0 < sumsq v.
Proof.
  intros (x & Hx & Hne). induction v as [|y v IH]; [by apply elem_of_nil in Hx|].
  rewrite sumsq_cons. pose proof (sumsq_nonneg v).
  apply elem_of_cons in Hx as [<-|Hx]; [nra|]. specialize (IH Hx). nra.
Qed.

(** A rounded result lies between [exact * (1 - u)] and [exact * (1 + u)]. *)
Lemma rounds_bounds (u e : R) (x : F) :
  0 <= e -> rounds u e x -> e * (1 - u) <= value x <= e * (1 + u).
Proof.
  intros He [_ Hr]. rewrite (Rabs_pos_eq e) in Hr by done.
  revert Hr. unfold Rabs. destruct (Rcase_abs _); intros; lra.
Qed.

Lemma rounds_square_bounds (u e : R) (x : F) :
  0 <= u <= 1 -> rounds u e x ->
  e * e * ((1 - u) * (1 - u)) <= value x * value x <= e * e * ((1 + u) * (1 + u)).
Proof.
  intros Hu [_ Hr].
  assert (Rabs e * (1 - u) <= Rabs (value x) <= Rabs e * (1 + u)) as [Hlo Hhi].
  { revert Hr. unfold Rabs. repeat destruct (Rcase_abs _); intros; lra. }
  pose proof (Rabs_pos e) as He. pose proof (Rabs_pos (value x)) as Hx.
  assert (forall z, z * z = Rabs z * Rabs z) as Habs
    by (intros z; unfold Rabs; destruct (Rcase_abs z); ring).
  rewrite (Habs (value x)), (Habs e).
  split.
  - replace (Rabs e * Rabs e * ((1 - u) * (1 - u)))
      with ((Rabs e * (1 - u)) * (Rabs e * (1 - u))) by ring.
    apply Rmult_le_compat; try done; apply Rmult_le_pos; lra.
  - replace (Rabs e * Rabs e * ((1 + u) * (1 + u)))
      with ((Rabs e * (1 + u)) * (Rabs e * (1 + u))) by ring.
    apply Rmult_le_compat; done.
Qed.

Lemma pow_unit (p : R) (k : nat) : 0 <= p <= 1 -> 0 <= p ^ k <= 1.
Proof. intros Hp. induction k as [|k IH]; simpl; [lra | nra]. Qed.

Lemma pow_le_self (p : R) (k : nat) : 0 <= p <= 1 -> (1 <= k)%nat -> p ^ k <= p.
Proof.
  intros Hp Hk. destruct k as [|k]; [lia|]. simpl.
  pose proof (pow_unit p k Hp). nra.
Qed.

Lemma pow_ge_self (r : R) (k : nat) : 1 <= r -> (1 <= k)%nat -> r <= r ^ k.
Proof.
  intros Hr Hk. destruct k as [|k]; [lia|]. simpl.
  pose proof (pow_R1_Rle r k Hr). nra.
Qed.

(** Bernoulli's inequality. *)
Lemma pow_one_minus (u : R) (m : nat) : 0 <= u <= 1 -> 1 - INR m * u <= (1 - u) ^ m.
Proof.
  intros Hu. induction m as [|m IH]; [simpl; lra|].
  rewrite S_INR. simpl. pose proof (pos_INR m). nra.
Qed.

(** The additions of [np.add.reduce] over the squares of a column: after
    [k] roundings the partial sum is within [(1 - u)^k] and [(1 + u)^k] of
    the exact sum of squares [T]. *)
Lemma sum_rounds_bounds (u : R) (xs : list F) :
  0 <= u <= 1 ->
  forall (acc : F) (T : R) (k : nat),
  (1 <= k)%nat -> 0 <= T ->
  T * (1 - u) ^ k <= value acc <= T * (1 + u) ^ k ->
  Forall (fun x => rounds u (value x * value x) (mul x x)) xs ->
  sum_rounds u acc (map (fun x => mul x x) xs) ->
  (T + sumsq (map value xs)) * (1 - u) ^ (k + length xs)
    <= value (fold_left add (map (fun x => mul x x) xs) acc)
    <= (T + sumsq (map value xs)) * (1 + u) ^ (k + length xs).
Proof.
  intros Hu. induction xs as [|x xs IH]; intros acc T k Hk HT Hacc Hsq Hsum.
  - simpl. unfold sumsq. simpl. rewrite Nat.add_0_r, Rplus_0_r. done.
  - apply Forall_cons in Hsq as [Hx Hsq]. destruct Hsum as [Hadd Hsum].
    simpl. set (a := value x) in *.
    assert (0 <= a * a) as Ha by nra.
    pose proof (rounds_bounds _ _ _ Ha Hx) as Hq.
    pose proof (pow_le_self (1 - u) k ltac:(lra) Hk) as Hp.
    pose proof (pow_ge_self (1 + u) k ltac:(lra) Hk) as Hr.
    pose proof (pow_le (1 - u) k ltac:(lra)) as Hp0.
    assert ((T + a * a) * (1 - u) ^ k <= value acc + value (mul x x)
            <= (T + a * a) * (1 + u) ^ k) as Hs by nra.
    assert (0 <= value acc + value (mul x x)) as Hs0 by nra.
    pose proof (rounds_bounds _ _ _ Hs0 Hadd) as Hacc'.
    rewrite sumsq_cons, <- Rplus_assoc.
    replace (k + S (length xs))%nat with (S k + length xs)%nat by lia.
    apply IH; [lia | nra | | done | done].
    simpl. pose proof (pow_R1_Rle (1 + u) k ltac:(lra)). split; nra.
Qed.

Lemma add_reduce_bounds (u : R) (v : list F) :
  0 <= u <= 1 -> (exists x, x ∈ v) ->
  Forall (fun x => rounds u (value x * value x) (mul x x)) v ->
  add_reduce_rounds u (map (fun x => mul x x) v) ->
  sumsq (map value v) * (1 - u) ^ length v
    <= value (add_reduce (map (fun x => mul x x) v))
    <= sumsq (map value v) * (1 + u) ^ length v.
Proof.
  intros Hu [x0 Hx0] Hsq Hsum. destruct v as [|x xs]; [by apply elem_of_nil in Hx0|].
  apply Forall_cons in Hsq as [Hx Hsq]. simpl in Hsum. simpl add_reduce.
  assert (0 <= value x * value x) as Ha by nra.
  pose proof (rounds_bounds _ _ _ Ha Hx) as Hq.
  pose proof (sum_rounds_bounds u xs Hu (mul x x) (value x * value x) 1 ltac:(lia) Ha
                ltac:(simpl; lra) Hsq Hsum) as Hb.
  replace (sumsq (map value (x :: xs))) with (value x * value x + sumsq (map value xs))
    by (simpl map; rewrite sumsq_cons; ring).
  exact Hb.
Qed.

(** The squares of the rounded quotients by a number [N], summed. *)
Lemma sumsq_quotients (u N : R) (f : F -> F) (v : list F) :
  0 <= u <= 1 ->
  Forall (fun x => rounds u (value x / N) (f x)) v ->
  sumsq (map value v) * / (N * N) * ((1 - u) * (1 - u))
    <= sumsq (map value (map f v))
    <= sumsq (map value v) * / (N * N) * ((1 + u) * (1 + u)).
Proof.
  intros Hu Hv. induction Hv as [|x v Hx _ IH]; simpl.
  - unfold sumsq. simpl. lra.
  - rewrite !sumsq_cons. pose proof (rounds_square_bounds _ _ _ Hu Hx) as Hb.
    replace (value x / N * (value x / N)) with (value x * value x * / (N * N)) in Hb.
    + lra.
    + unfold Rdiv. destruct (Req_dec N 0) as [->|HN].
      * rewrite Rmult_0_l, Rinv_0. ring.
      * rewrite Rinv_mult. ring.
Qed.

Lemma is_finite_quotients (u N : R) (f : F -> F) (v : list F) :
  Forall (fun x => rounds u (value x / N) (f x)) v ->
  Forall (fun y => is_finite y = true) (map f v).
Proof.
  intros Hv. apply Forall_fmap. eapply Forall_impl; [exact Hv|]. by intros x [? _].
Qed.

(** The error analysis of one column [v] of [n] entries: [n + 2] roundings
    lie between the exact sum of squares and the square of the computed
    norm, and one more between each entry and its quotient. *)
Lemma column_unit_norm (u : R) (v : list F) :
  0 <= u -> INR (length v + 4) * u <= 1 / 2 ->
  column_rounds u v -> (exists x, x ∈ v /\ value x <> 0) ->
  Rabs (norm2 (map value
          (map (fun x => div x (np_sqrt (add_reduce (map (fun y => mul y y) v)))) v)) - 1)
    <= INR (length v + 4) * u.
Proof.
  intros Hu0 Ht (Hsq & Hsum & Hsqrt & Hdiv) Hnz.
  set (n := length v) in *. set (t := INR (n + 4) * u) in *.
  assert (0 <= u <= 1) as Hu.
  { split; [done|]. assert (4 <= INR (n + 4)).
    { rewrite plus_INR. pose proof (pos_INR n). simpl. lra. }
    unfold t in Ht. nra. }
  assert (0 <= t) as Ht0 by (unfold t; pose proof (pos_INR (n + 4)); nra).
  set (Sx := sumsq (map value v)).
  assert (0 < Sx) as HS.
  { apply sumsq_pos. destruct Hnz as (x & Hx & Hne). exists (value x).
    split; [by apply (list_elem_of_fmap_2 value) | done]. }
  pose proof (add_reduce_bounds u v Hu
                ltac:(destruct Hnz as (x & Hx & _); by exists x) Hsq Hsum) as Hs.
  fold Sx n in Hs.
  set (s := value (add_reduce (map (fun y => mul y y) v))) in *.
  set (nrm := np_sqrt (add_reduce (map (fun y => mul y y) v))) in *.
  set (p := 1 - u) in *. set (r := 1 + u) in *.
  assert (1 / 2 <= p <= 1 /\ 1 <= r /\ 0 <= p * r <= 1) as (Hp & Hr & Hpr).
  { unfold p, r. assert (4 <= INR (n + 4)).
    { rewrite plus_INR. pose proof (pos_INR n). simpl. lra. }
    unfold t in Ht. split_and!; nra. }
  pose proof (pow_unit p n ltac:(lra)) as Hpn.
  pose proof (pow_lt p n ltac:(lra)) as Hpn0.
  pose proof (pow_R1_Rle r n Hr) as Hrn.
  pose proof (pow_unit (p * r) n Hpr) as Hprn. rewrite Rpow_mult_distr in Hprn.
  pose proof (pow_one_minus u (n + 4) Hu) as Hbern. fold p t in Hbern.
  rewrite pow_add in Hbern. simpl in Hbern. rewrite Rmult_1_r in Hbern.
  set (pn := p ^ n) in *. set (rn := r ^ n) in *.
  assert (0 < s) as Hs0.
  { apply Rlt_le_trans with (Sx * pn); [by apply Rmult_lt_0_compat | apply Hs]. }
  pose proof (sqrt_lt_R0 s Hs0) as Hsqrt0.
  pose proof (rounds_bounds u (sqrt s) nrm (Rlt_le _ _ Hsqrt0) Hsqrt) as HN.
  pose proof (rounds_square_bounds _ _ _ Hu Hsqrt) as HN2.
  rewrite sqrt_sqrt in HN2 by lra. fold p r in HN, HN2.
  set (N := value nrm) in *.
  assert (0 < N) as HN0 by nra.
  pose proof (sumsq_quotients u N (fun x => div x nrm) v Hu Hdiv) as HQ.
  fold Sx p r in HQ.
  set (Q := sumsq (map value (map (fun x => div x nrm) v))) in *.
  assert (0 <= Q) as HQ0 by apply sumsq_nonneg.
  assert (0 < N * N) as HNN by nra.
  assert (Sx * (p * p) <= Q * (N * N) <= Sx * (r * r)) as HQN.
  { assert (Sx * / (N * N) * (p * p) * (N * N) = Sx * (p * p)) as <- by (field; lra).
    assert (Sx * / (N * N) * (r * r) * (N * N) = Sx * (r * r)) as <- by (field; lra).
    split; apply Rmult_le_compat_r; lra. }
  assert ((1 - t) * (1 - t) <= Q <= (1 + t) * (1 + t)) as [Hlo Hhi].
  { split.
    - assert (p * p <= Q * (rn * (r * r))) as H1.
      { apply (Rmult_le_reg_l Sx); [done|].
        apply Rle_trans with (Q * (N * N)); [lra|].
        replace (Sx * (Q * (rn * (r * r)))) with (Q * (Sx * rn * (r * r))) by ring.
        apply Rmult_le_compat_l; [done|].
        apply Rle_trans with (s * (r * r)); [lra|].
        apply Rmult_le_compat_r; [nra | lra]. }
      assert (pn * (p * p) * (p * p) <= Q * ((pn * rn) * ((p * r) * (p * r)))) as H2.
      { replace (Q * ((pn * rn) * ((p * r) * (p * r))))
          with (pn * (p * p) * (Q * (rn * (r * r)))) by ring.
        apply Rmult_le_compat_l; [nra | done]. }
      assert (0 <= (p * r) * (p * r) <= 1) as Hpr2 by nra.
      assert (0 <= (pn * rn) * ((p * r) * (p * r)) <= 1) as H3 by nra.
      assert (Q * ((pn * rn) * ((p * r) * (p * r))) <= Q * 1) as H4
        by (apply Rmult_le_compat_l; [done | apply H3]).
      assert (1 - t <= Q) by lra. nra.
    - assert (Q * (pn * (p * p)) <= r * r) as H1.
      { apply (Rmult_le_reg_l Sx); [done|].
        apply Rle_trans with (Q * (N * N)); [|lra].
        replace (Sx * (Q * (pn * (p * p)))) with (Q * (Sx * pn * (p * p))) by ring.
        apply Rmult_le_compat_l; [done|].
        apply Rle_trans with (s * (p * p)); [|lra].
        apply Rmult_le_compat_r; [nra | lra]. }
      assert (Q * (pn * (p * (p * (p * p)))) <= (p * r) * (p * r)) as H2.
      { replace (Q * (pn * (p * (p * (p * p))))) with ((p * p) * (Q * (pn * (p * p)))) by ring.
        replace ((p * r) * (p * r)) with ((p * p) * (r * r)) by ring.
        apply Rmult_le_compat_l; [nra | done]. }
      assert (Q * (1 - t) <= 1) as H3.
      { apply Rle_trans with (Q * (pn * (p * (p * (p * p))))); [|nra].
        apply Rmult_le_compat_l; [done | lra]. }
      nra. }
  unfold norm2. fold (sumsq (map value (map (fun x => div x nrm) v))). fold Q.
  assert (1 - t <= sqrt Q <= 1 + t) as [? ?].
  { split.
    - rewrite <- (sqrt_square (1 - t)) by lra. by apply sqrt_le_1_alt.
    - rewrite <- (sqrt_square (1 + t)) by lra. by apply sqrt_le_1_alt. }
  apply Rabs_le. lra.
Qed.

(** C5, on the floating-point program and without the overflow above: let
    [A] be a matrix of [n] rows no column of which is zero, and let every
    operation that [normalize_columns] performs on its columns (squares,
    sums, square root, quotients) return a finite number within relative error
    [u] of its exact result, as IEEE arithmetic does with [u = 2^-53] when it
    neither overflows nor underflows, with [(n + 4) * u <= 1/2].  Then
    [normalize_columns] returns a matrix of the same shape, each column of
    which is the column of the input divided by its computed Euclidean norm,
    holds finite numbers only, and has a Euclidean norm within [(n + 4) * u]
    of 1. *)
Theorem normalize_columns_unit_norm (u : R) (n c : nat) (A : list (list F)) :
  has_shape n c A ->
  0 <= u -> INR (n + 4) * u <= 1 / 2 ->
  (forall j, (j < c)%nat ->
     column_rounds u (col j A) /\ exists x, x ∈ col j A /\ value x <> 0) ->
  exists B, normalize_columns A = Ok B /\ has_shape n c B /\
    forall j, (j < c)%nat ->
      col j B = map (fun x => div x (np_sqrt (add_reduce (map (fun y => mul y y)
                                                            (col j A)))))
                    (col j A) /\
      Forall (fun y => is_finite y = true) (col j B) /\
      Rabs (norm2 (map value (col j B)) - 1) <= INR (n + 4) * u.
Proof.
  intros HA Hu Ht Hcols.
  destruct (normalize_columns_shape n c A HA) as (B & HB & Hshape).
  exists B. split_and!; [done..|]. intros j Hj.
  destruct (Hcols j Hj) as [Hround Hnz].
  pose proof (normalize_columns_col n c j A B HA Hj HB) as Hcol.
  assert (length (col j A) = n) as Hlen by (rewrite length_col; apply HA).
  split_and!; [done | |].
  - rewrite Hcol. destruct Hround as (_ & _ & _ & Hdiv).
    by eapply is_finite_quotients.
  - rewrite Hcol. rewrite <- Hlen in Ht |- *. by apply column_unit_norm.
Qed.

End RoundingErrors.

(** The value of each float of the goal, computed. *)
Ltac float_values :=
  repeat match goal with
  | |- context [@value PrimFloat.float _ ?f] =>
      let sf := eval vm_compute in (FloatOps.Prim2SF f) in
      lazymatch sf with
      | SpecFloat.S754_finite ?s ?m ?e =>
          let z := eval vm_compute in (if s then Zneg m else Zpos m) in
          let b := eval vm_compute in (e <? 0)%Z in
          lazymatch b with
          | true => let d := eval vm_compute in (2 ^ (- e))%Z in
                    change (@value PrimFloat.float _ f) with (IZR z / IZR d)%R
          | false => let k := eval vm_compute in (z * 2 ^ e)%Z in
                     change (@value PrimFloat.float _ f) with (IZR k)
          end
      | _ => change (@value PrimFloat.float _ f) with 0%R
      end
  end.

(** A number whose square is within [(1 - u)^2] and [(1 + u)^2] of [x] is
    within relative error [u] of the square root of [x]. *)
Lemma sqrt_within (u x v : R) :
  (0 <= u <= 1 -> 0 <= x -> 0 <= v ->
   x * ((1 - u) * (1 - u)) <= v * v <= x * ((1 + u) * (1 + u)) ->
   Rabs (v - sqrt x) <= u * Rabs (sqrt x))%R.
Proof.
  intros Hu Hx Hv [Hlo Hhi].
  pose proof (sqrt_pos x) as Hs.
  assert (sqrt x * (1 - u) <= v <= sqrt x * (1 + u))%R as [? ?].
  { split.
    - rewrite <- (sqrt_square v) by done.
      rewrite <- (sqrt_square (1 - u)) by lra. rewrite <- sqrt_mult_alt by done.
      by apply sqrt_le_1_alt.
    - rewrite <- (sqrt_square v) by done.
      rewrite <- (sqrt_square (1 + u)) by lra. rewrite <- sqrt_mult_alt by done.
      by apply sqrt_le_1_alt. }
  rewrite (Rabs_pos_eq (sqrt x)) by done. apply Rabs_le. lra.
Qed.

(** An operation on binary64 numbers whose exact result is not negative
    rounds it, by computation. *)
Ltac rounds_by_computation :=
  split; [vm_compute; reflexivity |];
  float_values;
  match goal with
  | |- (_ <= _ * Rabs ?e)%R => rewrite (Rabs_pos_eq e) by lra
  end;
  apply Rabs_le; unfold Binary64.unit_roundoff; split; lra.

(** A run of the theorem above in binary64, with [u = 2^-53]: the columns
    (1, 1) and (3, 4), the norms of which are the rounded square root of 2
    and 5. *)
Lemma normalize_columns_unit_norm_witness :
  exists B,
    normalize_columns [[of_Z 1; of_Z 3]; [of_Z 1; of_Z 4]] = Ok B /\
    has_shape 2 2 B /\
    forall j, j < 2 ->
      col j B = map (fun x : PrimFloat.float =>
                       div x (np_sqrt (add_reduce (map (fun y => mul y y)
                                (col j [[of_Z 1; of_Z 3]; [of_Z 1; of_Z 4]])))))
                    (col j [[of_Z 1; of_Z 3]; [of_Z 1; of_Z 4]]) /\
      Forall (fun y => is_finite y = true) (col j B) /\
      (Rabs (norm2 (map value (col j B)) - 1) <= INR (2 + 4) * Binary64.unit_roundoff)%R.
Proof.
  apply (normalize_columns_unit_norm (F := PrimFloat.float)
           Binary64.unit_roundoff 2 2 [[of_Z 1; of_Z 3]; [of_Z 1; of_Z 4]]).
  - split; [reflexivity | repeat constructor].
  - unfold Binary64.unit_roundoff. lra.
  - unfold Binary64.unit_roundoff. simpl. lra.
  - intros [|[|j]] Hj; [| |lia].
    + change (col 0 [[of_Z 1; of_Z 3]; [of_Z 1; of_Z 4]])
        with [of_Z 1; of_Z 1 : PrimFloat.float].
      split.
      * unfold column_rounds. cbn [map add_reduce fold_left add_reduce_rounds sum_rounds].
        refine (conj _ (conj _ (conj _ _))).
        -- constructor. { rounds_by_computation. }
           constructor. { rounds_by_computation. }
           constructor.
        -- split. { rounds_by_computation. }
           exact I.
        -- split; [vm_compute; reflexivity |]. float_values.
           replace (4503599627370496 / 2251799813685248)%R with 2%R by lra.
           unfold Binary64.unit_roundoff. apply sqrt_within; [lra | lra | lra |].
           split; lra.
        -- constructor. { rounds_by_computation. }
           constructor. { rounds_by_computation. }
           constructor.
      * exists (of_Z 1). split; [apply elem_of_cons; by left | float_values; lra].
    + change (col 1 [[of_Z 1; of_Z 3]; [of_Z 1; of_Z 4]])
        with [of_Z 3; of_Z 4 : PrimFloat.float].
      split.
      * unfold column_rounds. cbn [map add_reduce fold_left add_reduce_rounds sum_rounds].
        refine (conj _ (conj _ (conj _ _))).
        -- constructor. { rounds_by_computation. }
           constructor. { rounds_by_computation. }
           constructor.
        -- split. { rounds_by_computation. }
           exact I.
        -- split; [vm_compute; reflexivity |]. float_values.
           match goal with
           | |- context [sqrt ?x] => replace x with 25%R by lra
           end.
           unfold Binary64.unit_roundoff. apply sqrt_within; [lra | lra | lra |].
           split; lra.
        -- constructor. { rounds_by_computation. }
           constructor. { rounds_by_computation. }
           constructor.
      * exists (of_Z 3). split; [apply elem_of_cons; by left | float_values; lra].
Defined.

(** The hypothesis of the theorem is what fails at the overflow: the square
    of 2^600 is no finite number. *)
Lemma overflow_does_not_round (u : R) : ~ column_rounds u [Binary64.huge].
Proof.
  intros (Hsq & _). apply Forall_cons in Hsq as [[Hfin _] _].
  vm_compute in Hfin. discriminate.
Qed.


(** ** The store: what a call does to the caller's arrays *)

Lemma remove_zeros_idemp (a : ndarray) : remove_zeros (remove_zeros a) = remove_zeros a.
Proof.
  unfold remove_zeros. simpl. f_equal. rewrite map_map. apply map_ext.
  intros v. destruct (Z.eqb_spec v 0) as [->|Hv]; [done|].
  by destruct (Z.eqb_spec v 0).
Qed.

Lemma remove_zeros_no_zero (a : ndarray) : 0%Z ∉ data a -> remove_zeros a = a.
Proof.
  destruct a as [s d]. unfold remove_zeros. simpl. intros Hd. f_equal.
  induction d as [|v d IH]; simpl; [done|].
  apply not_elem_of_cons in Hd as [Hv Hd]. rewrite IH by done.
  by destruct (Z.eqb_spec v 0) as [->|_].
Qed.

Lemma remove_zeros_has_zero (a : ndarray) : 0%Z ∈ data a -> remove_zeros a <> a.
Proof.
  intros Hd Heq. assert (0%Z ∈ data (remove_zeros a)) as Hz by (by rewrite Heq).
  unfold remove_zeros in Hz. simpl in Hz.
  apply list_elem_of_fmap in Hz as (v & Hv & _).
  destruct (Z.eqb_spec v 0); lia.
Qed.

Section Store.
Context {F : Type} `{Arith F} `{NumLib F}.

(** A call on two arrays of the store: the zero replacement is written to
    both, and the rest of the program runs on float copies of what was
    written. *)
Lemma normalize_Macenko_run (patch targetImg : loc) (Io beta alpha : F) (b : bool)
    (σ : gmap loc ndarray) (p t : ndarray) :
  σ !! patch = Some p -> σ !! targetImg = Some t ->
  normalize_Macenko patch targetImg Io beta alpha b σ
  = (macenko (shape p) (astype_float (data (remove_zeros p)))
             (astype_float (data (remove_zeros t))) Io beta alpha b,
     <[targetImg := remove_zeros t]> (<[patch := remove_zeros p]> σ)).
Proof.
  intros Hp Ht. unfold normalize_Macenko, bindM, load, store, lift.
  rewrite Hp. simpl. rewrite lookup_insert_eq. simpl.
  destruct (decide (patch = targetImg)) as [<-|Hne].
  - rewrite lookup_insert_eq. simpl. rewrite lookup_insert_eq. simpl.
    assert (t = p) as -> by congruence.
    pose proof (remove_zeros_idemp p) as Hi. rewrite Hi.
    apply (f_equal data) in Hi. simpl in Hi. by rewrite Hi.
  - rewrite lookup_insert_ne, Ht by done. simpl. by rewrite lookup_insert_eq.
Qed.

Lemma normalize_Macenko_no_patch (patch targetImg : loc) (Io beta alpha : F) (b : bool)
    (σ : gmap loc ndarray) :
  σ !! patch = None ->
  normalize_Macenko patch targetImg Io beta alpha b σ = (Raise TypeError, σ).
Proof.
  intros Hp. unfold normalize_Macenko, bindM, load. by rewrite Hp.
Qed.

Lemma normalize_Macenko_no_target (patch targetImg : loc) (Io beta alpha : F) (b : bool)
    (σ : gmap loc ndarray) (p : ndarray) :
  σ !! patch = Some p -> σ !! targetImg = None ->
  normalize_Macenko patch targetImg Io beta alpha b σ
  = (Raise TypeError, <[patch := remove_zeros p]> σ).
Proof.
  intros Hp Ht. unfold normalize_Macenko, bindM, load, store.
  rewrite Hp. simpl. rewrite lookup_insert_eq. simpl.
  assert (patch <> targetImg) as Hne by congruence.
  by rewrite lookup_insert_ne, Ht by done.
Qed.

(** C2, as the code has it: the zero-to-one replacement is written to the
    caller's arrays before the float copies are taken.  After a call, [patch]
    and [targetImg] hold their samples with every 0 replaced by 1, every
    other array of the store is untouched, and the two arrays are unchanged
    exactly when they held no zero. *)
Theorem normalize_Macenko_writes_caller_buffers
    (patch targetImg : loc) (Io beta alpha : F) (b : bool)
    (σ : gmap loc ndarray) (p t : ndarray) :
  σ !! patch = Some p -> σ !! targetImg = Some t ->
  let σ' := (normalize_Macenko patch targetImg Io beta alpha b σ).2 in
  σ' !! patch = Some (remove_zeros p) /\
  σ' !! targetImg = Some (remove_zeros t) /\
  (forall l, l <> patch -> l <> targetImg -> σ' !! l = σ !! l) /\
  ((σ' = σ) <-> ((0%Z ∉ data p) /\ (0%Z ∉ data t))).
Proof.
  intros Hp Ht. rewrite (normalize_Macenko_run _ _ _ _ _ _ _ p t) by done. simpl.
  assert (<[targetImg:=remove_zeros t]> (<[patch:=remove_zeros p]> σ) !! patch
          = Some (remove_zeros p)) as Hp'.
  { destruct (decide (patch = targetImg)) as [<-|Hne].
    - rewrite lookup_insert_eq. congruence.
    - by rewrite lookup_insert_ne, lookup_insert_eq by done. }
  split_and!.
  - done.
  - by rewrite lookup_insert_eq.
  - intros l Hlp Hlt. by rewrite !lookup_insert_ne by done.
  - split.
    + intros Heq. rewrite Heq in Hp'.
      assert (<[targetImg:=remove_zeros t]> (<[patch:=remove_zeros p]> σ) !! targetImg
              = Some (remove_zeros t)) as Ht' by (by rewrite lookup_insert_eq).
      rewrite Heq in Ht'.
      split; intros Hz.
      * apply remove_zeros_has_zero in Hz. congruence.
      * apply remove_zeros_has_zero in Hz. congruence.
    + intros [Hzp Hzt]. rewrite !remove_zeros_no_zero by done.
      by rewrite (insert_id σ patch p), (insert_id σ targetImg t).
Qed.

End Store.

(** A run of the theorem above on [example_store]. *)
Lemma normalize_Macenko_writes_caller_buffers_witness :
  let σ' := (normalize_Macenko (F := R) 0 1 255%R 0.15%R 1%R true example_store).2 in
  σ' !! 0 = Some (remove_zeros {| shape := [1; 1; 3]; data := [0; 128; 255]%Z |}) /\
  σ' !! 1 = Some (remove_zeros {| shape := [1; 1; 3]; data := [200; 100; 50]%Z |}) /\
  (forall l, l <> 0 -> l <> 1 -> σ' !! l = example_store !! l) /\
  ((σ' = example_store) <->
   ((0%Z ∉ [0; 128; 255]%Z) /\ (0%Z ∉ [200; 100; 50]%Z))).
Proof.
  apply (normalize_Macenko_writes_caller_buffers (F := R) 0 1 255%R 0.15%R 1%R true
           example_store
           {| shape := [1; 1; 3]; data := [0; 128; 255]%Z |}
           {| shape := [1; 1; 3]; data := [200; 100; 50]%Z |});
    reflexivity.
Defined.

(** C2 fails on the code: the caller's patch holds a zero sample before the
    call and a one in its place after it. *)
Lemma normalize_Macenko_mutates_patch :
  example_store !! 0 = Some {| shape := [1; 1; 3]; data := [0; 128; 255]%Z |} /\
  (normalize_Macenko (F := R) 0 1 255%R 0.15%R 1%R true example_store).2 !! 0
  = Some {| shape := [1; 1; 3]; data := [1; 128; 255]%Z |}.
Proof.
  split; [reflexivity|].
  rewrite (normalize_Macenko_run (F := R) 0 1 _ _ _ _ example_store
             {| shape := [1; 1; 3]; data := [0; 128; 255]%Z |}
             {| shape := [1; 1; 3]; data := [200; 100; 50]%Z |}) by reflexivity.
  reflexivity.
Qed.

(** ** Determinism *)

Section Determinism.
Context {F : Type} `{Arith F} `{NumLib F}.

(** C8: the outcome of a call is a function of its arguments, that is of the
    contents of the two arrays and of the four parameters.  Two calls on
    stores that hold the same patch and the same target end with the same
    image (or the same exception); and calling again with the same arguments,
    on the arrays as the first call left them, gives the same outcome once
    more and leaves the store as it is. *)
Theorem normalize_Macenko_deterministic
    (patch targetImg : loc) (Io beta alpha : F) (b : bool)
    (σ1 σ2 : gmap loc ndarray) :
  σ1 !! patch = σ2 !! patch -> σ1 !! targetImg = σ2 !! targetImg ->
  (normalize_Macenko patch targetImg Io beta alpha b σ1).1
  = (normalize_Macenko patch targetImg Io beta alpha b σ2).1 /\
  normalize_Macenko patch targetImg Io beta alpha b
    (normalize_Macenko patch targetImg Io beta alpha b σ1).2
  = normalize_Macenko patch targetImg Io beta alpha b σ1.
Proof.
  intros Hp Ht. split.
  - destruct (σ1 !! patch) as [p|] eqn:Hp1.
    + destruct (σ1 !! targetImg) as [t|] eqn:Ht1.
      * by rewrite (normalize_Macenko_run _ _ _ _ _ _ σ1 p t),
                   (normalize_Macenko_run _ _ _ _ _ _ σ2 p t).
      * by rewrite (normalize_Macenko_no_target _ _ _ _ _ _ σ1 p),
                   (normalize_Macenko_no_target _ _ _ _ _ _ σ2 p).
    + by rewrite !normalize_Macenko_no_patch.
  - clear Hp Ht σ2. destruct (σ1 !! patch) as [p|] eqn:Hp1.
    + destruct (σ1 !! targetImg) as [t|] eqn:Ht1.
      * rewrite (normalize_Macenko_run _ _ _ _ _ _ σ1 p t) by done. simpl.
        set (σ' := <[targetImg:=remove_zeros t]> (<[patch:=remove_zeros p]> σ1)).
        assert (σ' !! targetImg = Some (remove_zeros t)) as Ht'
          by apply lookup_insert_eq.
        assert (σ' !! patch = Some (remove_zeros p)) as Hp'.
        { unfold σ'. destruct (decide (patch = targetImg)) as [<-|Hne].
          - rewrite lookup_insert_eq. congruence.
          - by rewrite lookup_insert_ne, lookup_insert_eq by done. }
        rewrite (normalize_Macenko_run _ _ _ _ _ _ σ' _ _ Hp' Ht').
        rewrite !remove_zeros_idemp. simpl shape.
        by rewrite (insert_id σ' patch), (insert_id σ' targetImg).
      * rewrite (normalize_Macenko_no_target _ _ _ _ _ _ σ1 p) by done. simpl.
        assert (patch <> targetImg) as Hne by congruence.
        rewrite (normalize_Macenko_no_target _ _ _ _ _ _ _ (remove_zeros p)).
        -- by rewrite remove_zeros_idemp, insert_insert_eq.
        -- apply lookup_insert_eq.
        -- by rewrite lookup_insert_ne.
    + rewrite (normalize_Macenko_no_patch _ _ _ _ _ _ σ1 Hp1). simpl.
      by rewrite (normalize_Macenko_no_patch _ _ _ _ _ _ σ1 Hp1).
Qed.

End Determinism.

(** A run of the theorem above: the same patch and target in two stores. *)
Lemma normalize_Macenko_deterministic_witness :
  (normalize_Macenko (F := R) 0 1 255%R 0.15%R 1%R true example_store).1
  = (normalize_Macenko (F := R) 0 1 255%R 0.15%R 1%R true example_store_bis).1 /\
  normalize_Macenko (F := R) 0 1 255%R 0.15%R 1%R true
    (normalize_Macenko (F := R) 0 1 255%R 0.15%R 1%R true example_store).2
  = normalize_Macenko (F := R) 0 1 255%R 0.15%R 1%R true example_store.
Proof.
  apply (normalize_Macenko_deterministic (F := R) 0 1 255%R 0.15%R 1%R true
           example_store example_store_bis); reflexivity.
Defined.

(** ** The exceptions of a call *)

Section Exceptions.
Context {F : Type} `{Arith F} `{NumLib F}.

Lemma orRaise_exn {A : Type} (e0 e : exn) (o : option A) :
  orRaise e0 o = Raise e -> e = e0.
Proof. destruct o; simpl; congruence. Qed.

Lemma item_exn (v : list F) (i : nat) (e : exn) : item v i = Raise e -> e = IndexError.
Proof. apply orRaise_exn. Qed.

Lemma item2_exn (A : list (list F)) (i j : nat) (e : exn) :
  item2 A i j = Raise e -> e = IndexError.
Proof.
  unfold item2. intros Hr.
  apply bind_Raise in Hr as [Hr|(r & _ & Hr)]; [by apply orRaise_exn in Hr|].
  by apply item_exn in Hr.
Qed.

Lemma take_cols_2_1_exn (A : list (list F)) (e : exn) :
  take_cols_2_1 A = Raise e -> e = IndexError.
Proof.
  intros (r & Hr)%mapM_Raise.
  apply bind_Raise in Hr as [Hr|(a & _ & Hr)]; [by apply item_exn in Hr|].
  apply bind_Raise in Hr as [Hr|(b & _ & Hr)]; [by apply item_exn in Hr|done].
Qed.

Lemma fix_sign_exn (j : nat) (V : list (list F)) (e : exn) :
  fix_sign j V = Raise e -> e = IndexError.
Proof.
  unfold fix_sign. intros Hr.
  apply bind_Raise in Hr as [Hr|(a & _ & Hr)]; [by apply item2_exn in Hr|done].
Qed.

Lemma angles_exn (That : list (list F)) (e : exn) :
  angles That = Raise e -> e = IndexError.
Proof.
  intros (r & Hr)%mapM_Raise.
  apply bind_Raise in Hr as [Hr|(a & _ & Hr)]; [by apply item_exn in Hr|].
  apply bind_Raise in Hr as [Hr|(b & _ & Hr)]; [by apply item_exn in Hr|done].
Qed.

Lemma np_dot_exn (A B : list (list F)) (e : exn) :
  np_dot A B = Raise e -> e = ValueError.
Proof. unfold np_dot. case_match; congruence. Qed.

Lemma np_dot_vec_exn (A : list (list F)) (v : list F) (e : exn) :
  np_dot_vec A v = Raise e -> e = ValueError.
Proof. unfold np_dot_vec. case_match; congruence. Qed.

Lemma np_cross_exn (u v : list F) (e : exn) :
  np_cross u v = Raise e -> e = ValueError.
Proof.
  unfold np_cross. intros Hr.
  repeat (case_match; try congruence).
Qed.

Lemma unpack3_exn (s : list nat) (e : exn) : unpack3 s = Raise e -> e = ValueError.
Proof. unfold unpack3. intros Hr. repeat (case_match; try congruence). Qed.

Lemma reshape_rows_of_3_exn (a : list F) (e : exn) :
  reshape_rows_of_3 a = Raise e -> e = ValueError.
Proof. unfold reshape_rows_of_3. case_match; congruence. Qed.

Lemma max_concentration_exn (C : list (list F)) (e : exn) :
  max_concentration C = Raise e -> e = ValueError.
Proof.
  unfold max_concentration. intros Hr.
  apply bind_Raise in Hr as [(r & Hr)%mapM_Raise|(m & _ & Hr)].
  - by apply orRaise_exn in Hr.
  - case_match; congruence.
Qed.

Lemma tidy_up_exn (h w c : nat) (I : list (list F)) (e : exn) :
  tidy_up h w c I = Raise e -> e = ValueError.
Proof. unfold tidy_up. case_match; congruence. Qed.

(** One step of a failing sequence: the failure is the first statement's, or
    the statement succeeded and the failure comes later. *)
Ltac step H :=
  apply bind_Raise in H as [H|(? & _ & H)];
  [ first [ apply orRaise_exn in H | apply take_cols_2_1_exn in H
          | apply fix_sign_exn in H | apply np_dot_exn in H
          | apply angles_exn in H | apply np_dot_vec_exn in H
          | apply np_cross_exn in H | apply item_exn in H
          | apply unpack3_exn in H | apply reshape_rows_of_3_exn in H
          | apply max_concentration_exn in H ];
    subst; unfold numpy_exn; auto
  | ].

Lemma stain_matrix_exn (c : nat) (OD : list (list F)) (beta alpha : F) (e : exn) :
  stain_matrix c OD beta alpha = Raise e -> numpy_exn e.
Proof.
  unfold stain_matrix. intros Hr. do 13 step Hr. discriminate.
Qed.

Lemma modify_concentrations_exn (C HE_target OD_target : list (list F)) (e : exn) :
  modify_concentrations C HE_target OD_target = Raise e -> numpy_exn e.
Proof.
  unfold modify_concentrations. intros Hr. do 3 step Hr. discriminate.
Qed.

Lemma macenko_exn (s : list nat) (patch targetImg : list F) (Io beta alpha : F)
    (b : bool) (e : exn) :
  macenko s patch targetImg Io beta alpha b = Raise e -> numpy_exn e.
Proof.
  unfold macenko. intros Hr. step Hr.
  apply bind_Raise in Hr as [Hr|(? & _ & Hr)]; [by apply stain_matrix_exn in Hr|].
  step Hr.
  apply bind_Raise in Hr as [Hr|(? & _ & Hr)]; [by apply stain_matrix_exn in Hr|].
  step Hr.
  apply bind_Raise in Hr as [Hr|(? & _ & Hr)].
  { destruct b; [by apply modify_concentrations_exn in Hr | discriminate]. }
  step Hr. apply tidy_up_exn in Hr. subst. unfold numpy_exn. auto.
Qed.

(** A call ends with an image, with one of NumPy's exceptions, or, in the
    model, with [TypeError] for an argument that names no array of the
    store: never with one of the error kinds of the design document. *)
Lemma normalize_Macenko_exn (patch targetImg : loc) (Io beta alpha : F) (b : bool)
    (σ : gmap loc ndarray) (e : exn) :
  (normalize_Macenko patch targetImg Io beta alpha b σ).1 = Raise e ->
  numpy_exn e \/ e = TypeError.
Proof.
  destruct (σ !! patch) as [p|] eqn:Hp.
  - destruct (σ !! targetImg) as [t|] eqn:Ht.
    + rewrite (normalize_Macenko_run _ _ _ _ _ _ σ p t) by done. simpl.
      intros Hr%macenko_exn. by left.
    + rewrite (normalize_Macenko_no_target _ _ _ _ _ _ σ p) by done. simpl.
      intros [= <-]. by right.
  - rewrite normalize_Macenko_no_patch by done. simpl. intros [= <-]. by right.
Qed.

End Exceptions.

(** ** When the statements succeed *)

Section Success.
Context {F : Type} `{Arith F} `{NumLib F}.

Lemma take_cols_2_1_ok (n c : nat) (V : list (list F)) :
  has_shape n c V -> 3 <= c ->
  exists V', take_cols_2_1 V = Ok V' /\ has_shape n 2 V'.
Proof.
  intros [Hn HV] Hc.
  assert (is_Ok (take_cols_2_1 V)) as [V' HV'].
  { apply mapM_total. eapply Forall_impl; [exact HV|]. simpl. intros r Hr.
    unfold item. destruct (lookup_lt_is_Some_2 r 2) as [a ->]; [lia|].
    destruct (lookup_lt_is_Some_2 r 1) as [b ->]; [lia|]. by eexists. }
  exists V'. split; [done|]. split.
  - apply mapM_Ok_length in HV'. lia.
  - apply mapM_Ok_Forall2 in HV'. clear -HV'.
    induction HV' as [|r r' V V' Hr _ IH]; constructor; [|done].
    apply bind_Ok in Hr as (a & _ & Hr). apply bind_Ok in Hr as (b & _ & Hr).
    by injection Hr as <-.
Qed.

Lemma take_cols_2_1_length (V V' : list (list F)) :
  take_cols_2_1 V = Ok V' -> length V' = length V.
Proof. apply mapM_Ok_length. Qed.

Lemma has_shape_negate_col (n c j : nat) (V : list (list F)) :
  has_shape n c V -> has_shape n c (negate_col j V).
Proof.
  intros HV. apply has_shape_map; [done|]. intros r Hr. by rewrite length_alter.
Qed.

Lemma fix_sign_ok (n c j : nat) (V : list (list F)) :
  has_shape (S n) c V -> j < c ->
  exists V', fix_sign j V = Ok V' /\ has_shape (S n) c V'.
Proof.
  intros HV Hj.
  assert (exists x, item2 V 0 j = Ok x) as [x Hx].
  { unfold item2, item.
    destruct V as [|r V]; [destruct HV as [HV _]; discriminate|].
    apply has_shape_cons in HV as [Hr _]. simpl.
    destruct (lookup_lt_is_Some_2 r j) as [x ->]; [lia|]. by exists x. }
  unfold fix_sign. rewrite Hx. cbn [bind].
  eexists. split; [done|]. destruct (ltb x zero); [|done].
  by apply has_shape_negate_col.
Qed.

Lemma fix_sign_length (j : nat) (V V' : list (list F)) :
  fix_sign j V = Ok V' -> length V' = length V.
Proof.
  unfold fix_sign. intros (x & _ & Hx)%bind_Ok. injection Hx as <-.
  destruct (ltb x zero); [|done]. unfold negate_col. by rewrite length_map.
Qed.

Lemma np_dot_ok (A B : list (list F)) :
  Forall (fun a => length a = length B) A ->
  exists P, np_dot A B = Ok P /\ has_shape (length A) (ncols B) P.
Proof.
  intros HA. unfold np_dot.
  assert (forallb (fun a => Nat.eqb (length a) (length B)) A = true) as ->.
  { apply forallb_forall. intros a Ha%list_elem_of_In.
    apply Nat.eqb_eq. by eapply Forall_forall in HA. }
  eexists. split; [done|]. split; [by rewrite length_map|].
  apply Forall_fmap, Forall_forall. intros a _. simpl.
  by rewrite length_map, length_seq.
Qed.

Lemma angles_ok (n : nat) (That : list (list F)) :
  has_shape n 2 That -> is_Ok (angles That).
Proof.
  intros [_ HT]. apply mapM_total. eapply Forall_impl; [exact HT|]. simpl.
  intros r Hr. unfold item.
  destruct (lookup_lt_is_Some_2 r 1) as [y ->]; [lia|].
  destruct (lookup_lt_is_Some_2 r 0) as [x ->]; [lia|]. by eexists.
Qed.

Lemma np_dot_vec_ok (n k : nat) (V : list (list F)) (v : list F) :
  has_shape n k V -> length v = k ->
  exists u, np_dot_vec V v = Ok u /\ length u = n.
Proof.
  intros [Hn HV] Hv. unfold np_dot_vec.
  assert (forallb (fun a => Nat.eqb (length a) (length v)) V = true) as ->.
  { apply forallb_forall. intros a Ha%list_elem_of_In.
    apply Nat.eqb_eq. eapply Forall_forall in HV; [|done]. lia. }
  eexists. split; [done|]. by rewrite length_map.
Qed.

Lemma np_dot_vec_length (V : list (list F)) (v u : list F) :
  np_dot_vec V v = Ok u -> length u = length V.
Proof.
  unfold np_dot_vec. case_match; [|discriminate]. intros [= <-].
  by rewrite length_map.
Qed.

Lemma np_cross_ok (u v : list F) :
  length u = 3 -> length v = 3 ->
  exists w, np_cross u v = Ok w /\ length w = 3.
Proof.
  destruct u as [|u0 [|u1 [|u2 [|]]]]; try discriminate.
  destruct v as [|v0 [|v1 [|v2 [|]]]]; try discriminate.
  intros _ _. by eexists.
Qed.

Lemma np_cross_length (u v w : list F) : np_cross u v = Ok w -> length u = 3.
Proof.
  destruct u as [|u0 [|u1 [|u2 [|]]]]; try discriminate.
  destruct v as [|v0 [|v1 [|v2 [|]]]]; try discriminate. done.
Qed.

(** The stain estimation returns a 3 by 3 matrix as soon as the eigensolver
    answers with a 3 by 3 matrix and the two percentiles are accepted,
    whatever the number of foreground samples. *)
Lemma stain_matrix_ok (n : nat) (OD : list (list F)) (beta alpha : F)
    (w : list F) (V : list (list F)) :
  has_shape n 3 OD ->
  linalg_eigh (np_cov 3 (foreground beta OD)) = Some (w, V) ->
  has_shape 3 3 V ->
  percentile_accepts alpha -> percentile_accepts (sub (of_Z 100) alpha) ->
  exists HE, stain_matrix 3 OD beta alpha = Ok HE /\ has_shape 3 3 HE.
Proof.
  intros HOD Heigh HV Hq1 Hq2. unfold stain_matrix.
  rewrite Heigh. cbn [orRaise bind snd].
  destruct (take_cols_2_1_ok 3 3 V HV) as (V1 & -> & HV1); [lia|]. cbn [bind].
  destruct (fix_sign_ok 2 2 0 V1 HV1) as (V2 & -> & HV2); [lia|]. cbn [bind].
  destruct (fix_sign_ok 2 2 1 V2 HV2) as (V3 & -> & HV3); [lia|]. cbn [bind].
  destruct (np_dot_ok (foreground beta OD) V3) as (That & -> & HThat).
  { destruct HV3 as [-> _]. destruct HOD as [_ HOD].
    apply Forall_forall. intros r Hr%list_elem_of_In%filter_In.
    destruct Hr as [Hr%list_elem_of_In _]. by eapply Forall_forall in HOD. }
  cbn [bind]. rewrite (has_shape_ncols 3 2 V3) in HThat by (done || lia).
  destruct (angles_ok _ That HThat) as [phi ->]. cbn [bind].
  destruct (Hq1 phi) as [minPhi ->]. destruct (Hq2 phi) as [maxPhi ->].
  cbn [orRaise bind].
  destruct (np_dot_vec_ok 3 2 V3 [np_cos minPhi; np_sin minPhi] HV3)
    as (v1 & -> & Hv1); [done|].
  destruct (np_dot_vec_ok 3 2 V3 [np_cos maxPhi; np_sin maxPhi] HV3)
    as (v2 & -> & Hv2); [done|].
  cbn [bind].
  destruct (np_cross_ok v1 v2 Hv1 Hv2) as (v3 & -> & Hv3). cbn [bind].
  unfold item.
  destruct (lookup_lt_is_Some_2 v1 0) as [a ->]; [lia|].
  destruct (lookup_lt_is_Some_2 v2 0) as [b ->]; [lia|].
  cbn [orRaise bind].
  apply normalize_columns_shape.
  destruct (ltb b a); apply (has_shape_transpose 3 [_; _; _]).
Qed.

(** With a library that returns arrays of the documented shapes, the stain
    estimation succeeds on images of three channels only. *)
Lemma stain_matrix_Ok_channels (c : nat) (OD HE : list (list F)) (beta alpha : F) :
  lib_shapes -> stain_matrix c OD beta alpha = Ok HE -> c = 3.
Proof.
  intros (Hcov & Heigh & _). unfold stain_matrix. intros Hr.
  apply bind_Ok in Hr as ([w V] & HwV & Hr). cbn [snd] in Hr.
  apply bind_Ok in Hr as (V1 & HV1 & Hr).
  apply bind_Ok in Hr as (V2 & HV2 & Hr).
  apply bind_Ok in Hr as (V3 & HV3 & Hr).
  apply bind_Ok in Hr as (That & _ & Hr).
  apply bind_Ok in Hr as (phi & _ & Hr).
  apply bind_Ok in Hr as (minPhi & _ & Hr).
  apply bind_Ok in Hr as (maxPhi & _ & Hr).
  apply bind_Ok in Hr as (v1 & Hv1 & Hr).
  apply bind_Ok in Hr as (v2 & _ & Hr).
  apply bind_Ok in Hr as (v3 & Hv3 & _).
  apply np_cross_length in Hv3. apply np_dot_vec_length in Hv1.
  apply fix_sign_length in HV3. apply fix_sign_length in HV2.
  apply take_cols_2_1_length in HV1.
  destruct (linalg_eigh _) as [[w' V']|] eqn:HE'; [|discriminate].
  injection HwV as -> ->.
  apply Heigh in HE' as [HE' _]. destruct (Hcov c (foreground beta OD)) as [Hc _].
  lia.
Qed.

End Success.

(** ** Degenerate foreground *)

Section Degenerate.
Context {F : Type} `{Arith F} `{NumLib F}.

Lemma has_shape_optical_density (Io : F) (n c : nat) (I : list (list F)) :
  has_shape n c I -> has_shape n c (optical_density Io I).
Proof. intros HI. apply has_shape_map; [done|]. intros r Hr. by rewrite length_map. Qed.

Lemma has_shape_patch_OD (Io : F) (h w c : nat) (p : ndarray) :
  shape p = [h; w; c] -> well_formed p -> has_shape (h * w) c (patch_OD Io h w c p).
Proof.
  intros Hs Hwf. apply has_shape_optical_density, has_shape_reshape2.
  unfold astype_float. rewrite length_map. unfold remove_zeros. simpl.
  rewrite length_map. unfold well_formed in Hwf. rewrite Hwf, Hs. simpl. lia.
Qed.

(** A failure of the source stain estimation is the failure of the call. *)
Lemma macenko_source_fails (h w c : nat) (p : ndarray) (targetImg : list F)
    (Io beta alpha : F) (b : bool) (e : exn) :
  stain_matrix c (patch_OD Io h w c p) beta alpha = Raise e ->
  macenko [h; w; c] (astype_float (data (remove_zeros p))) targetImg
          Io beta alpha b = Raise e.
Proof.
  intros Hr. unfold macenko, patch_OD in *. cbn [unpack3 bind fst snd].
  by rewrite Hr.
Qed.

(** C1, as the code has it: the stain estimation has no guard on the size of
    the Foreground Sample Set.  When the patch has fewer than two foreground
    samples the call never ends with [DegenerateStainEstimation]: the sample
    set is handed to [np.cov] and [np.linalg.eigh] as it is; if the
    eigensolver fails the caller gets its [LinAlgError], and if it answers
    (with a 3 by 3 matrix, the percentiles being accepted) the estimation
    returns a stain matrix computed from that answer. *)
Theorem stain_estimation_unguarded
    (patch targetImg : loc) (Io beta alpha : F) (b : bool)
    (σ : gmap loc ndarray) (p t : ndarray) (h w : nat) :
  σ !! patch = Some p -> σ !! targetImg = Some t ->
  shape p = [h; w; 3] -> well_formed p ->
  length (foreground beta (patch_OD Io h w 3 p)) < 2 ->
  (normalize_Macenko patch targetImg Io beta alpha b σ).1
    <> Raise DegenerateStainEstimation /\
  (linalg_eigh (np_cov 3 (foreground beta (patch_OD Io h w 3 p))) = None ->
   (normalize_Macenko patch targetImg Io beta alpha b σ).1 = Raise LinAlgError) /\
  (forall ev V,
     linalg_eigh (np_cov 3 (foreground beta (patch_OD Io h w 3 p))) = Some (ev, V) ->
     has_shape 3 3 V ->
     percentile_accepts alpha -> percentile_accepts (sub (of_Z 100) alpha) ->
     exists HE, stain_matrix 3 (patch_OD Io h w 3 p) beta alpha = Ok HE /\
                has_shape 3 3 HE).
Proof.
  intros Hp Ht Hs Hwf _. split_and!.
  - intros Hr. apply normalize_Macenko_exn in Hr as [[?|[?|?]]|?]; discriminate.
  - intros Heigh. rewrite (normalize_Macenko_run _ _ _ _ _ _ σ p t) by done.
    cbn [fst]. rewrite Hs. apply macenko_source_fails.
    unfold stain_matrix. by rewrite Heigh.
  - intros ev V Heigh HV Hq1 Hq2.
    eapply stain_matrix_ok; eauto using has_shape_patch_OD.
Qed.

End Degenerate.

Lemma white_patch_no_foreground :
  foreground 0.15%R
    (patch_OD 255%R 1 1 3 {| shape := [1; 1; 3]; data := [255; 255; 255]%Z |}) = [].
Proof.
  unfold patch_OD, foreground, optical_density, reshape2, astype_float. simpl.
  assert ((- ln (255 / 255))%R = 0%R) as ->.
  { replace (255 / 255)%R with 1%R by lra. rewrite ln_1. lra. }
  destruct (Rlt_dec 0.15 0) as [Hlt|_]; [lra | reflexivity].
Qed.

(** A run of the theorem above, on the white patch. *)
Lemma stain_estimation_unguarded_witness :
  (normalize_Macenko (F := R) 0 1 255%R 0.15%R 1%R true white_store).1
    <> Raise DegenerateStainEstimation /\
  (linalg_eigh (np_cov 3 (foreground 0.15%R
     (patch_OD 255%R 1 1 3 {| shape := [1; 1; 3]; data := [255; 255; 255]%Z |}))) = None ->
   (normalize_Macenko (F := R) 0 1 255%R 0.15%R 1%R true white_store).1
     = Raise LinAlgError) /\
  (forall ev V,
     linalg_eigh (np_cov 3 (foreground 0.15%R
       (patch_OD 255%R 1 1 3 {| shape := [1; 1; 3]; data := [255; 255; 255]%Z |})))
       = Some (ev, V) ->
     has_shape 3 3 V ->
     percentile_accepts 1%R -> percentile_accepts (sub (of_Z 100) 1%R) ->
     exists HE,
       stain_matrix 3
         (patch_OD 255%R 1 1 3 {| shape := [1; 1; 3]; data := [255; 255; 255]%Z |})
         0.15%R 1%R = Ok HE /\ has_shape 3 3 HE).
Proof.
  apply (stain_estimation_unguarded (F := R) 0 1 255%R 0.15%R 1%R true white_store
           {| shape := [1; 1; 3]; data := [255; 255; 255]%Z |}
           {| shape := [1; 1; 3]; data := [200; 100; 50]%Z |} 1 1).
  - reflexivity.
  - reflexivity.
  - reflexivity.
  - reflexivity.
  - rewrite white_patch_no_foreground. simpl. lia.
Defined.

(** C1 fails on the code: the white patch has no foreground sample, and the
    call does not end with [DegenerateStainEstimation]. *)
Lemma degenerate_patch_not_reported :
  length (foreground 0.15%R
    (patch_OD 255%R 1 1 3 {| shape := [1; 1; 3]; data := [255; 255; 255]%Z |})) = 0 /\
  (normalize_Macenko (F := R) 0 1 255%R 0.15%R 1%R true white_store).1
    <> Raise DegenerateStainEstimation.
Proof.
  split; [by rewrite white_patch_no_foreground|].
  intros Hr. apply normalize_Macenko_exn in Hr as [[?|[?|?]]|?]; discriminate.
Qed.

(** ** The returned image *)

Section Output.
Context {F : Type} `{Arith F} `{NumLib F}.

Lemma astype_uint8_range (x : F) : (0 <= astype_uint8 x <= 255)%Z.
Proof.
  unfold astype_uint8. pose proof (Z.mod_pos_bound (trunc x) 256). lia.
Qed.

Lemma tidy_up_Ok (h w c : nat) (I : list (list F)) (img : ndarray) :
  tidy_up h w c I = Ok img ->
  shape img = [h; w; c] /\ length (data img) = h * w * c /\
  Forall (fun v => (0 <= v <= 255)%Z) (data img).
Proof.
  unfold tidy_up. case_match eqn:Hlen; [|discriminate]. intros [= <-]. simpl.
  apply Nat.eqb_eq in Hlen. split_and!; [done | by rewrite length_map |].
  apply Forall_fmap, Forall_forall. intros x _. apply astype_uint8_range.
Qed.

(** Whatever the library computes, an image that is returned has the shape
    of the patch, as many samples as the shape says, each of them in
    [0, 255]. *)
Lemma macenko_Ok_image (s : list nat) (patch targetImg : list F)
    (Io beta alpha : F) (b : bool) (img : ndarray) :
  macenko s patch targetImg Io beta alpha b = Ok img ->
  shape img = s /\ well_formed img /\
  Forall (fun v => (0 <= v <= 255)%Z) (data img).
Proof.
  unfold macenko. intros Hr.
  apply bind_Ok in Hr as ([[h w] c] & Hs & Hr). cbn [fst snd] in Hr.
  apply bind_Ok in Hr as (HE & _ & Hr).
  apply bind_Ok in Hr as (T & _ & Hr).
  apply bind_Ok in Hr as (HE_t & _ & Hr).
  apply bind_Ok in Hr as (C & _ & Hr).
  apply bind_Ok in Hr as (C' & _ & Hr).
  apply bind_Ok in Hr as (P & _ & Hr).
  apply tidy_up_Ok in Hr as (Hshape & Hlen & Hrange).
  assert (s = [h; w; c]) as ->.
  { unfold unpack3 in Hs. repeat (case_match; try discriminate). by injection Hs as <- <- <-. }
  split_and!; [done | | done].
  unfold well_formed. rewrite Hshape, Hlen. simpl. lia.
Qed.

Lemma length_concat_shape (n c : nat) (A : list (list F)) :
  has_shape n c A -> length (concat A) = n * c.
Proof.
  intros [<- HA]. induction HA as [|r A Hr _ IH]; simpl; [done|].
  rewrite length_app. lia.
Qed.

Lemma max_concentration_ok (n : nat) (C : list (list F)) :
  has_shape 3 n C -> percentile_accepts (of_Z 99) ->
  exists m, max_concentration C = Ok m /\ length m = 3 /\ m !! 2 = Some (of_Z 1).
Proof.
  intros [HC _] Hq. unfold max_concentration.
  assert (is_Ok (mapM (fun r => orRaise ValueError (np_percentile r (of_Z 99))) C))
    as [m Hm].
  { apply mapM_total, Forall_forall. intros r _. destruct (Hq r) as [v ->]. by eexists. }
  rewrite Hm. cbn [bind]. apply mapM_Ok_length in Hm. rewrite Hm, HC. simpl.
  eexists. split; [done|]. rewrite length_insert. split; [lia|].
  apply list_lookup_insert_eq. lia.
Qed.

Lemma max_concentration_Ok (C : list (list F)) (m : list F) :
  max_concentration C = Ok m ->
  length C = 3 /\ length m = 3 /\ m !! 2 = Some (of_Z 1).
Proof.
  unfold max_concentration. intros (m0 & Hm0 & Hm)%bind_Ok.
  apply mapM_Ok_length in Hm0.
  destruct (Nat.eqb_spec (length m0) 3) as [Hlen|]; [|discriminate].
  injection Hm as <-. rewrite length_insert. split_and!; [lia..|].
  apply list_lookup_insert_eq. lia.
Qed.

Lemma has_shape_rescale (n : nat) (C : list (list F)) (mt m : list F) :
  has_shape 3 n C -> length mt = 3 -> length m = 3 ->
  has_shape 3 n (rescale C mt m).
Proof.
  intros [HC Hrows] Hmt Hm. unfold rescale. split.
  - rewrite length_zip_with, length_zip. lia.
  - apply Forall_forall. intros r Hr.
    apply elem_of_lookup_zip_with in Hr as (i & r0 & mm & -> & Hr0 & _).
    rewrite length_map. eapply Forall_forall in Hrows; [done|].
    by eapply list_elem_of_lookup_2.
Qed.

Lemma modify_concentrations_ok (n k : nat) (C HE_target OD_target : list (list F)) :
  lib_shapes -> solvers_converge -> percentile_accepts (of_Z 99) ->
  has_shape 3 n C -> has_shape 3 3 HE_target -> has_shape k 3 OD_target ->
  exists C', modify_concentrations C HE_target OD_target = Ok C' /\ has_shape 3 n C'.
Proof.
  intros (_ & _ & Hlstsq) (_ & Hsolve) Hq HC HHE HOD. unfold modify_concentrations.
  destruct (max_concentration_ok n C HC Hq) as (m & -> & Hm & _). cbn [bind].
  pose proof (has_shape_transpose 3 OD_target) as HY.
  destruct (Hsolve HE_target _ _ HHE HY) as [Ct HCt]. rewrite HCt. cbn [orRaise bind].
  apply (Hlstsq _ _ _ _ _ HHE HY) in HCt.
  destruct (max_concentration_ok _ Ct HCt Hq) as (mt & -> & Hmt & _). cbn [bind].
  eexists. split; [done|]. by apply has_shape_rescale.
Qed.

(** On two well-shaped images of three channels, with a library whose
    solvers converge and that accepts the percentiles, every statement of
    the program succeeds. *)
Lemma macenko_ok (h w : nat) (patch targetImg : list F) (Io beta alpha : F) (b : bool) :
  lib_shapes -> solvers_converge ->
  percentile_accepts alpha -> percentile_accepts (sub (of_Z 100) alpha) ->
  percentile_accepts (of_Z 99) ->
  length patch = h * w * 3 -> length targetImg mod 3 = 0 ->
  is_Ok (macenko [h; w; 3] patch targetImg Io beta alpha b).
Proof.
  intros Hshapes Hsolve Hq1 Hq2 Hq99 Hlen Hmod.
  pose proof Hshapes as (Hcov & Heigh & Hlstsq).
  pose proof Hsolve as (Heigh_ok & Hlstsq_ok).
  assert (forall n OD, has_shape n 3 OD ->
            exists HE, stain_matrix 3 OD beta alpha = Ok HE /\ has_shape 3 3 HE)
    as Hstain.
  { intros n OD HOD.
    destruct (Heigh_ok _ (Hcov 3 (foreground beta OD))) as [[ev V] HV].
    eapply stain_matrix_ok; [done.. | | done | done].
    apply Heigh in HV. destruct (Hcov 3 (foreground beta OD)) as [Hl _].
    by rewrite Hl in HV. }
  unfold macenko. cbn [unpack3 bind fst snd].
  set (OD := optical_density Io (reshape2 (h * w) 3 patch)).
  assert (has_shape (h * w) 3 OD) as HOD.
  { apply has_shape_optical_density, has_shape_reshape2. lia. }
  destruct (Hstain _ OD HOD) as (HE & -> & HHE). cbn [bind].
  unfold reshape_rows_of_3. rewrite Hmod. cbn [Nat.eqb bind].
  set (OD_t := optical_density Io (reshape2 (length targetImg / 3) 3 targetImg)).
  assert (has_shape (length targetImg / 3) 3 OD_t) as HOD_t.
  { apply has_shape_optical_density, has_shape_reshape2.
    pose proof (Nat.div_mod_eq (length targetImg) 3). lia. }
  destruct (Hstain _ OD_t HOD_t) as (HE_t & -> & HHE_t). cbn [bind].
  pose proof (has_shape_transpose 3 OD) as HY.
  destruct HOD as [HODn HODr]. rewrite HODn in HY.
  destruct (Hlstsq_ok HE _ _ HHE HY) as [C HC]. rewrite HC. cbn [orRaise bind].
  apply (Hlstsq _ _ _ _ _ HHE HY) in HC.
  assert (exists C', (if b then modify_concentrations C HE_t OD_t else Ok C) = Ok C'
                     /\ has_shape 3 (h * w) C') as (C' & -> & HC').
  { destruct b; [|by exists C].
    by eapply modify_concentrations_ok. }
  cbn [bind].
  destruct (np_dot_ok HE_t C') as (P & -> & HP).
  { destruct HC' as [-> _]. by destruct HHE_t as [_ ?]. }
  cbn [bind]. rewrite (has_shape_ncols 3 (h * w) C') in HP by (done || lia).
  destruct HHE_t as [HHE_t _]. rewrite HHE_t in HP.
  set (Inorm := map (map (fun x => mul Io (np_exp (neg x)))) P).
  assert (has_shape 3 (h * w) Inorm) as HI.
  { apply has_shape_map; [done|]. intros r Hr. by rewrite length_map. }
  rewrite (has_shape_ncols 3 (h * w) Inorm) by (done || lia).
  unfold tidy_up.
  pose proof (has_shape_transpose (h * w) Inorm) as HT.
  destruct HI as [HI _]. rewrite HI in HT.
  rewrite (length_concat_shape _ _ _ HT), Nat.eqb_refl. by eexists.
Qed.

(** C4: on well-shaped inputs (a patch of shape (h, w, 3) that holds
    h * w * 3 samples, a target whose samples group in rows of 3) and valid
    parameters (percentiles that the library accepts), with a library whose
    solvers converge, [normalize_Macenko] returns an image that has the shape
    of the patch and as many samples as that shape says, each sample a uint8:
    an integer of [0, 255]. *)
Theorem normalize_Macenko_image
    (patch targetImg : loc) (Io beta alpha : F) (b : bool)
    (σ : gmap loc ndarray) (p t : ndarray) (h w : nat) :
  σ !! patch = Some p -> σ !! targetImg = Some t ->
  shape p = [h; w; 3] -> well_formed p -> length (data t) mod 3 = 0 ->
  lib_shapes -> solvers_converge ->
  percentile_accepts alpha -> percentile_accepts (sub (of_Z 100) alpha) ->
  percentile_accepts (of_Z 99) ->
  exists img,
    (normalize_Macenko patch targetImg Io beta alpha b σ).1 = Ok img /\
    shape img = [h; w; 3] /\
    length (data img) = h * w * 3 /\
    Forall (fun v => (0 <= v <= 255)%Z) (data img).
Proof.
  intros Hp Ht Hs Hwf Hmod Hshapes Hsolve Hq1 Hq2 Hq99.
  rewrite (normalize_Macenko_run _ _ _ _ _ _ σ p t) by done. cbn [fst].
  rewrite Hs.
  destruct (macenko_ok h w (astype_float (data (remove_zeros p)))
              (astype_float (data (remove_zeros t))) Io beta alpha b)
    as [img Himg]; try done.
  - unfold astype_float, remove_zeros. simpl. rewrite !length_map.
    unfold well_formed in Hwf. rewrite Hwf, Hs. simpl. lia.
  - unfold astype_float, remove_zeros. simpl. by rewrite !length_map.
  - exists img. split; [done|].
    apply macenko_Ok_image in Himg as (Hshape & Hwf' & Hrange).
    split_and!; [done | | done].
    unfold well_formed in Hwf'. rewrite Hwf', Hshape. simpl. lia.
Qed.

End Output.

(** ** The reference library meets the assumptions *)

Section ReferenceLaws.
Local Open Scope R_scope.

Lemma reference_cov_shape (c : nat) (X : list (list R)) :
  has_shape c c (Reference.cov c X).
Proof.
  unfold Reference.cov. split; [by rewrite length_map, length_seq|].
  apply Forall_fmap, Forall_forall. intros j _. simpl.
  by rewrite length_map, length_seq.
Qed.

Lemma reference_identity_shape (n : nat) : has_shape n n (Reference.identity n).
Proof.
  unfold Reference.identity. split; [by rewrite length_map, length_seq|].
  apply Forall_fmap, Forall_forall. intros j _. simpl.
  by rewrite length_map, length_seq.
Qed.

Lemma reference_lstsq_shape (A B X : list (list R)) (n k : nat) :
  has_shape n n A -> has_shape n k B ->
  Reference.lstsq A B = Some X -> has_shape n k X.
Proof.
  intros [HA _] HB. unfold Reference.lstsq.
  destruct A as [|[|a [|b [|c [|]]]] [|[|d [|e [|f [|]]]] [|[|g [|h [|i [|]]]] [|]]]];
    try discriminate.
  destruct (Nat.eqb_spec (length B) 3) as [HB3|]; [|discriminate].
  intros [= <-]. simpl in HA. subst n.
  rewrite (has_shape_ncols 3 k B) by (done || lia).
  pose proof (has_shape_transpose 3
    (map (Reference.solve3 a b c d e f g h i) (transpose k B))) as HT.
  assert (length (map (Reference.solve3 a b c d e f g h i) (transpose k B)) = k)
    as Hk by (unfold transpose; by rewrite !length_map, length_seq).
  by rewrite Hk in HT.
Qed.

Lemma reference_lib_shapes : lib_shapes (F := R).
Proof.
  split_and!.
  - apply reference_cov_shape.
  - intros A w V [= <- <-]. apply reference_identity_shape.
  - apply reference_lstsq_shape.
Qed.

Lemma reference_solvers_converge : solvers_converge (F := R).
Proof.
  split.
  - intros A _. by eexists.
  - intros A B k [HA HAr] [HB _]. simpl. unfold Reference.lstsq.
    destruct A as [|r0 [|r1 [|r2 [|]]]]; try discriminate.
    apply Forall_cons in HAr as [H0 HAr]. apply Forall_cons in HAr as [H1 HAr].
    apply Forall_cons in HAr as [H2 _].
    destruct r0 as [|a [|b [|c [|]]]]; try discriminate.
    destruct r1 as [|d [|e [|f [|]]]]; try discriminate.
    destruct r2 as [|g [|h [|i [|]]]]; try discriminate.
    rewrite HB. by eexists.
Qed.

Lemma reference_percentile_accepts (q : R) :
  0 <= q <= 100 -> percentile_accepts q.
Proof.
  intros [Hq0 Hq100] l. simpl. unfold Reference.percentile.
  destruct (Rle_dec 0 q); [|done]. destruct (Rle_dec q 100); [|done]. by eexists.
Qed.

End ReferenceLaws.

(** A run of the theorem above, with the reference library. *)
Lemma normalize_Macenko_image_witness :
  exists img,
    (normalize_Macenko (F := R) 0 1 255%R 0.15%R 1%R true example_store).1 = Ok img /\
    shape img = [1; 1; 3] /\
    length (data img) = 1 * 1 * 3 /\
    Forall (fun v => (0 <= v <= 255)%Z) (data img).
Proof.
  apply (normalize_Macenko_image (F := R) 0 1 255%R 0.15%R 1%R true example_store
           {| shape := [1; 1; 3]; data := [0; 128; 255]%Z |}
           {| shape := [1; 1; 3]; data := [200; 100; 50]%Z |} 1 1).
  - reflexivity.
  - reflexivity.
  - reflexivity.
  - reflexivity.
  - reflexivity.
  - apply reference_lib_shapes.
  - apply reference_solvers_converge.
  - apply reference_percentile_accepts. lra.
  - apply reference_percentile_accepts. simpl. lra.
  - apply reference_percentile_accepts. simpl. lra.
Defined.

(** ** Shapes of the inputs *)

Section ShapeGuard.
Context {F : Type} `{Arith F} `{NumLib F}.

Lemma macenko_not_3d (s : list nat) (patch targetImg : list F)
    (Io beta alpha : F) (b : bool) :
  length s <> 3 -> macenko s patch targetImg Io beta alpha b = Raise ValueError.
Proof.
  intros Hs. unfold macenko.
  destruct s as [|h [|w [|c [|]]]]; simpl in *; done.
Qed.

Lemma macenko_channels (h w c : nat) (patch targetImg : list F)
    (Io beta alpha : F) (b : bool) :
  lib_shapes -> c <> 3 ->
  exists e, macenko [h; w; c] patch targetImg Io beta alpha b = Raise e /\ numpy_exn e.
Proof.
  intros Hlib Hc.
  destruct (macenko [h; w; c] patch targetImg Io beta alpha b) as [img|e] eqn:Hr.
  - exfalso. unfold macenko in Hr. cbn [unpack3 bind fst snd] in Hr.
    apply bind_Ok in Hr as (HE & HHE & _).
    by apply (stain_matrix_Ok_channels _ _ _ _ _ Hlib) in HHE.
  - exists e. split; [done|]. by eapply macenko_exn.
Qed.

Lemma macenko_target_rows (s : list nat) (patch targetImg : list F)
    (Io beta alpha : F) (b : bool) :
  length targetImg mod 3 <> 0 ->
  exists e, macenko s patch targetImg Io beta alpha b = Raise e /\ numpy_exn e.
Proof.
  intros Hmod.
  destruct (macenko s patch targetImg Io beta alpha b) as [img|e] eqn:Hr.
  - exfalso. unfold macenko in Hr.
    apply bind_Ok in Hr as (hwc & _ & Hr).
    apply bind_Ok in Hr as (HE & _ & Hr).
    apply bind_Ok in Hr as (T & HT & _).
    unfold reshape_rows_of_3 in HT.
    destruct (Nat.eqb_spec (length targetImg mod 3) 0); [done | discriminate].
  - exists e. split; [done|]. by eapply macenko_exn.
Qed.

(** C3, as the code has it: the program has no shape guard and never ends
    with [InvalidImageShape].  A patch that is not 3-dimensional fails with
    [ValueError] where its shape is unpacked, after the zero replacement has
    been written to both arrays.  A 3-dimensional patch whose last dimension
    is not 3 fails, with one of NumPy's exceptions, in the stain estimation
    (the library returning arrays of the documented shapes).  The shape of
    the target is never read: only its samples count, regrouped in rows of
    three, and the call fails with one of NumPy's exceptions when they are
    not a multiple of three. *)
Theorem no_shape_guard
    (patch targetImg : loc) (Io beta alpha : F) (b : bool)
    (σ : gmap loc ndarray) (p t : ndarray) :
  σ !! patch = Some p -> σ !! targetImg = Some t -> patch <> targetImg ->
  let r := normalize_Macenko patch targetImg Io beta alpha b σ in
  r.1 <> Raise InvalidImageShape /\
  (length (shape p) <> 3 ->
   r.1 = Raise ValueError /\
   r.2 !! patch = Some (remove_zeros p) /\
   r.2 !! targetImg = Some (remove_zeros t)) /\
  (lib_shapes -> forall h w c, shape p = [h; w; c] -> c <> 3 ->
   exists e, r.1 = Raise e /\ numpy_exn e) /\
  (forall s',
     (normalize_Macenko patch targetImg Io beta alpha b
        (<[targetImg := {| shape := s'; data := data t |}]> σ)).1 = r.1) /\
  (length (data t) mod 3 <> 0 -> exists e, r.1 = Raise e /\ numpy_exn e).
Proof.
  intros Hp Ht Hne r. subst r.
  split.
  { intros Hr. apply normalize_Macenko_exn in Hr as [[?|[?|?]]|?]; discriminate. }
  rewrite (normalize_Macenko_run _ _ _ _ _ _ σ p t) by done. cbn [fst snd].
  split_and!.
  - intros Hs. split_and!.
    + by apply macenko_not_3d.
    + by rewrite lookup_insert_ne, lookup_insert_eq.
    + by rewrite lookup_insert_eq.
  - intros Hlib h w c -> Hc. by apply macenko_channels.
  - intros s'.
    rewrite (normalize_Macenko_run _ _ _ _ _ _ _ p {| shape := s'; data := data t |}).
    + done.
    + by rewrite lookup_insert_ne.
    + by rewrite lookup_insert_eq.
  - intros Hmod. apply macenko_target_rows.
    unfold astype_float, remove_zeros. simpl. by rewrite !length_map.
Qed.

End ShapeGuard.

(** A run of the theorem above on [rgba_store]. *)
Lemma no_shape_guard_witness :
  let p := {| shape := [1; 1; 4]; data := [10; 20; 30; 255]%Z |} in
  let t := {| shape := [1; 2; 4]; data := [200; 100; 50; 255; 90; 80; 70; 255]%Z |} in
  let r := normalize_Macenko (F := R) 0 1 255%R 0.15%R 1%R true rgba_store in
  r.1 <> Raise InvalidImageShape /\
  (length (shape p) <> 3 ->
   r.1 = Raise ValueError /\
   r.2 !! 0 = Some (remove_zeros p) /\
   r.2 !! 1 = Some (remove_zeros t)) /\
  (lib_shapes (F := R) -> forall h w c, shape p = [h; w; c] -> c <> 3 ->
   exists e, r.1 = Raise e /\ numpy_exn e) /\
  (forall s',
     (normalize_Macenko (F := R) 0 1 255%R 0.15%R 1%R true
        (<[1 := {| shape := s'; data := data t |}]> rgba_store)).1 = r.1) /\
  (length (data t) mod 3 <> 0 -> exists e, r.1 = Raise e /\ numpy_exn e).
Proof.
  apply (no_shape_guard (F := R) 0 1 255%R 0.15%R 1%R true rgba_store
           {| shape := [1; 1; 4]; data := [10; 20; 30; 255]%Z |}
           {| shape := [1; 2; 4]; data := [200; 100; 50; 255; 90; 80; 70; 255]%Z |}).
  - reflexivity.
  - reflexivity.
  - lia.
Defined.

(** C3 fails on the code: the patch of [rgba_store] has four channels, and
    the call ends with one of NumPy's exceptions, not with
    [InvalidImageShape]. *)
Lemma four_channel_patch_not_refused :
  rgba_store !! 0 = Some {| shape := [1; 1; 4]; data := [10; 20; 30; 255]%Z |} /\
  (normalize_Macenko (F := R) 0 1 255%R 0.15%R 1%R true rgba_store).1
    <> Raise InvalidImageShape /\
  exists e, (normalize_Macenko (F := R) 0 1 255%R 0.15%R 1%R true rgba_store).1
            = Raise e /\ numpy_exn e.
Proof.
  split; [reflexivity|].
  rewrite (normalize_Macenko_run (F := R) 0 1 _ _ _ _ rgba_store
             {| shape := [1; 1; 4]; data := [10; 20; 30; 255]%Z |}
             {| shape := [1; 2; 4]; data := [200; 100; 50; 255; 90; 80; 70; 255]%Z |})
    by reflexivity.
  cbn [fst shape].
  destruct (macenko_channels (F := R) 1 1 4
              (astype_float (data (remove_zeros
                 {| shape := [1; 1; 4]; data := [10; 20; 30; 255]%Z |})))
              (astype_float (data (remove_zeros
                 {| shape := [1; 2; 4];
                    data := [200; 100; 50; 255; 90; 80; 70; 255]%Z |})))
              255%R 0.15%R 1%R true reference_lib_shapes) as (e & He & Hnp); [lia|].
  rewrite He. split; [|by exists e].
  intros [= ->]. destruct Hnp as [?|[?|?]]; discriminate.
Qed.

(** ** The residual concentration *)

Section Residual.
Context {F : Type} `{Arith F} `{NumLib F}.
Hypothesis mul_one : forall x : F, mul x (of_Z 1) = x.
Hypothesis div_one : forall x : F, div x (of_Z 1) = x.

Lemma rescale_lookup (C : list (list F)) (mt m : list F) (i : nat) (r : list F) (a c : F) :
  C !! i = Some r -> mt !! i = Some a -> m !! i = Some c ->
  rescale C mt m !! i = Some (map (fun x => div (mul x a) c) r).
Proof.
  intros Hr Ha Hc. unfold rescale. rewrite lookup_zip_with. rewrite Hr. simpl.
  rewrite lookup_zip_with, Ha. simpl. by rewrite Hc.
Qed.

(** C7: in the intensity normalization, the 99th-percentile vectors [maxC]
    and [maxC_target] both have their third entry set to 1, and the third
    row of [C * maxC_target / maxC] is the third row of [C]. *)
Theorem residual_concentration_not_rescaled
    (C HE_target OD_target C' : list (list F)) :
  modify_concentrations C HE_target OD_target = Ok C' ->
  exists maxC C_target maxC_target,
    max_concentration C = Ok maxC /\
    linalg_lstsq HE_target (transpose 3 OD_target) = Some C_target /\
    max_concentration C_target = Ok maxC_target /\
    maxC !! 2 = Some (of_Z 1) /\ maxC_target !! 2 = Some (of_Z 1) /\
    C' = rescale C maxC_target maxC /\
    C' !! 2 = C !! 2.
Proof using mul_one div_one.
  unfold modify_concentrations. intros Hr.
  apply bind_Ok in Hr as (maxC & HmaxC & Hr).
  apply bind_Ok in Hr as (C_t & HC_t & Hr).
  apply bind_Ok in Hr as (maxC_t & HmaxC_t & Hr).
  injection Hr as <-.
  destruct (linalg_lstsq _ _) as [C_t'|] eqn:Hl; [|discriminate].
  injection HC_t as ->.
  exists maxC, C_t, maxC_t.
  pose proof (max_concentration_Ok _ _ HmaxC) as (HlenC & _ & Hm2).
  pose proof (max_concentration_Ok _ _ HmaxC_t) as (_ & _ & Hmt2).
  split_and!; try done.
  destruct (lookup_lt_is_Some_2 C 2) as [r Hr]; [lia|].
  rewrite (rescale_lookup C maxC_t maxC 2 r _ _ Hr Hmt2 Hm2), Hr. f_equal.
  rewrite <- (map_id r) at 2. apply map_ext. intros x.
  by rewrite mul_one, div_one.
Qed.

End Residual.

(** A run of the theorem above in exact arithmetic, with the reference
    library. *)
Lemma residual_concentration_not_rescaled_witness :
  exists C',
    modify_concentrations [[1; 2]; [3; 4]; [5; 6]]%R (Reference.identity 3)
                          [[7; 8; 9]]%R = Ok C' /\
    C' !! 2 = Some [5; 6]%R.
Proof.
  destruct (modify_concentrations_ok (F := R) 2 1
              [[1; 2]; [3; 4]; [5; 6]]%R (Reference.identity 3) [[7; 8; 9]]%R)
    as (C' & HC' & _).
  - apply reference_lib_shapes.
  - apply reference_solvers_converge.
  - apply reference_percentile_accepts. simpl. lra.
  - split; [reflexivity | repeat constructor].
  - apply reference_identity_shape.
  - split; [reflexivity | repeat constructor].
  - exists C'. split; [done|].
    assert (forall x : R, mul x (of_Z 1) = x) as Hmul by (intros x; simpl; lra).
    assert (forall x : R, div x (of_Z 1) = x) as Hdiv by (intros x; simpl; lra).
    destruct (residual_concentration_not_rescaled Hmul Hdiv _ _ _ _ HC')
      as (_ & _ & _ & _ & _ & _ & _ & _ & _ & Hrow).
    exact Hrow.
Defined.

(** ** The order of the target's pixels *)

Lemma filter_Permutation_bool {A : Type} (f : A -> bool) (l l' : list A) :
  l ≡ₚ l' -> List.filter f l ≡ₚ List.filter f l'.
Proof.
  induction 1 as [|x l l' _ IH|x y l|l l' l'' _ IH1 _ IH2]; simpl.
  - done.
  - destruct (f x); [by constructor | done].
  - destruct (f x), (f y); try done. apply perm_swap.
  - by etrans.
Qed.

Lemma forallb_Permutation {A : Type} (f : A -> bool) (l l' : list A) :
  l ≡ₚ l' -> forallb f l = forallb f l'.
Proof.
  induction 1 as [|x l l' _ IH|x y l|l l' l'' _ IH1 _ IH2]; simpl.
  - done.
  - by rewrite IH.
  - destruct (f x), (f y); done.
  - congruence.
Qed.

Lemma mapM_Forall2_ext {A B : Type} (f : A -> res B) (l l' : list A) :
  Forall2 (fun x y => f x = f y) l l' -> mapM f l = mapM f l'.
Proof. induction 1 as [|x y l l' Hxy _ IH]; simpl; [done|]. by rewrite Hxy, IH. Qed.

Lemma reshape2_map {A B : Type} (f : A -> B) (n c : nat) (a : list A) :
  reshape2 n c (map f a) = map (map f) (reshape2 n c a).
Proof.
  unfold reshape2. rewrite map_map. apply map_ext. intros i.
  by rewrite <- fmap_drop, <- fmap_take.
Qed.

(** A floating-point sum depends on the order of its terms: in binary64,
    [np.add.reduce] gives 1 on (1, 2^-53, 2^-53), each addition rounding back
    to 1, and 1 + 2^-52 on the same terms in the opposite order. *)
Lemma binary64_sum_order :
  [of_Z 1; Binary64.half_ulp; Binary64.half_ulp]
    ≡ₚ [Binary64.half_ulp; Binary64.half_ulp; of_Z 1] /\
  add_reduce [of_Z 1; Binary64.half_ulp; Binary64.half_ulp]
    <> add_reduce [Binary64.half_ulp; Binary64.half_ulp; of_Z 1].
Proof.
  split.
  - etrans; [apply perm_swap|]. apply perm_skip, perm_swap.
  - intros Heq.
    assert (PrimFloat.ltb (add_reduce [of_Z 1; Binary64.half_ulp; Binary64.half_ulp])
              (add_reduce [Binary64.half_ulp; Binary64.half_ulp; of_Z 1]) = true)
      as Hlt by reflexivity.
    rewrite Heq in Hlt. vm_compute in Hlt. discriminate.
Qed.

Section OrderFree.
Context {F : Type} `{Arith F} `{NumLib F}.
Hypothesis Hfree : order_free.

Lemma np_dot_Permutation (A A' B : list (list F)) :
  A ≡ₚ A' ->
  (np_dot A B = Raise ValueError /\ np_dot A' B = Raise ValueError) \/
  (exists P P', np_dot A B = Ok P /\ np_dot A' B = Ok P' /\ P ≡ₚ P').
Proof.
  intros HA. unfold np_dot.
  rewrite <- (forallb_Permutation _ _ _ HA).
  destruct (forallb _ A); [right | by left].
  eexists _, _. split_and!; [done..|]. by apply Permutation_map.
Qed.

Lemma angles_Permutation (T T' : list (list F)) :
  T ≡ₚ T' ->
  (angles T = Raise IndexError /\ angles T' = Raise IndexError) \/
  (exists phi phi', angles T = Ok phi /\ angles T' = Ok phi' /\ phi ≡ₚ phi').
Proof.
  apply mapM_Permutation. intros r e Hr.
  apply bind_Raise in Hr as [Hr|(a & _ & Hr)]; [by apply item_exn in Hr|].
  apply bind_Raise in Hr as [Hr|(b & _ & Hr)]; [by apply item_exn in Hr|done].
Qed.

(** The stain matrix is a function of the multiset of optical-density
    samples. *)
Lemma stain_matrix_Permutation (c : nat) (OD OD' : list (list F)) (beta alpha : F) :
  OD ≡ₚ OD' -> stain_matrix c OD beta alpha = stain_matrix c OD' beta alpha.
Proof using Hfree.
  destruct Hfree as (Hcov & Hperc & _). intros HOD.
  pose proof (filter_Permutation_bool (above beta) _ _ HOD) as Hfg.
  fold (foreground beta OD) in Hfg. fold (foreground beta OD') in Hfg.
  unfold stain_matrix. rewrite <- (Hcov c _ _ Hfg).
  destruct (orRaise LinAlgError _) as [wV|e]; [|done]. cbn [bind].
  destruct (take_cols_2_1 _) as [V1|e]; [|done]. cbn [bind].
  destruct (fix_sign 0 V1) as [V2|e]; [|done]. cbn [bind].
  destruct (fix_sign 1 V2) as [V3|e]; [|done]. cbn [bind].
  destruct (np_dot_Permutation _ _ V3 Hfg) as [[-> ->]|(P & P' & -> & -> & HP)];
    [done|]. cbn [bind].
  destruct (angles_Permutation _ _ HP) as [[-> ->]|(phi & phi' & -> & -> & Hphi)];
    [done|]. cbn [bind].
  by rewrite !(Hperc _ _ _ Hphi).
Qed.

Lemma max_concentration_rows (C C' : list (list F)) :
  Forall2 Permutation C C' -> max_concentration C = max_concentration C'.
Proof using Hfree.
  destruct Hfree as (_ & Hperc & _). intros HC. unfold max_concentration.
  rewrite (mapM_Forall2_ext _ C C'); [done|].
  eapply Forall2_impl; [exact HC|]. simpl. intros r r' Hr. by rewrite (Hperc _ _ _ Hr).
Qed.

Lemma modify_concentrations_Permutation (k : nat) (C HE_target OD OD' : list (list F)) :
  has_shape k 3 OD -> OD ≡ₚ OD' ->
  modify_concentrations C HE_target OD = modify_concentrations C HE_target OD'.
Proof using Hfree.
  intros Hshape HOD. unfold modify_concentrations.
  destruct (max_concentration C) as [maxC|e]; [|done]. cbn [bind].
  destruct Hfree as (_ & _ & Hlstsq).
  specialize (Hlstsq HE_target _ _ _ Hshape HOD). unfold rows_permuted in Hlstsq.
  destruct (linalg_lstsq HE_target (transpose 3 OD)) as [Ct|],
           (linalg_lstsq HE_target (transpose 3 OD')) as [Ct'|]; try done.
  cbn [orRaise bind]. by rewrite (max_concentration_rows _ _ Hlstsq).
Qed.

(** The program reads the target through its pixels up to their order. *)
Lemma macenko_Permutation (s : list nat) (patch targetImg targetImg' : list F)
    (Io beta alpha : F) (b : bool) :
  length targetImg' = length targetImg ->
  reshape2 (length targetImg / 3) 3 targetImg'
    ≡ₚ reshape2 (length targetImg / 3) 3 targetImg ->
  macenko s patch targetImg' Io beta alpha b
  = macenko s patch targetImg Io beta alpha b.
Proof using Hfree.
  intros Hlen Hpix. unfold macenko.
  destruct (unpack3 s) as [[[h w] c]|e]; [|done]. cbn [bind fst snd].
  destruct (stain_matrix c _ beta alpha) as [HE|e]; [|done]. cbn [bind].
  unfold reshape_rows_of_3. rewrite Hlen.
  destruct (Nat.eqb_spec (length targetImg mod 3) 0) as [Hmod|]; [|done].
  cbn [bind].
  set (T := reshape2 (length targetImg / 3) 3 targetImg) in *.
  set (T' := reshape2 (length targetImg / 3) 3 targetImg') in *.
  assert (optical_density Io T' ≡ₚ optical_density Io T) as HOD
    by (by apply Permutation_map).
  rewrite (stain_matrix_Permutation 3 _ _ beta alpha HOD).
  destruct (stain_matrix 3 (optical_density Io T) beta alpha) as [HE_t|e]; [|done].
  cbn [bind].
  destruct (orRaise LinAlgError _) as [C|e]; [|done]. cbn [bind].
  destruct b; [|done].
  rewrite (modify_concentrations_Permutation (length targetImg / 3) C HE_t
             (optical_density Io T') (optical_density Io T)); [done| |done].
  apply has_shape_optical_density, has_shape_reshape2. rewrite Hlen.
  pose proof (Nat.div_mod_eq (length targetImg) 3). lia.
Qed.

(** In exact arithmetic, that is with statistics that do not depend on the
    order of the samples, permuting the pixels of the target (the rows of
    three samples of its buffer) does not change the outcome of a call: the
    program itself reads the target through the library's covariance,
    percentiles and least-squares solution only.  Whether the floating-point
    library gives the same bits for a permuted target is a question of the
    order of its sums, which is not the program's. *)
Theorem normalize_Macenko_target_order
    (patch targetImg : loc) (Io beta alpha : F) (b : bool)
    (σ : gmap loc ndarray) (p t t' : ndarray) :
  patch <> targetImg ->
  σ !! patch = Some p -> σ !! targetImg = Some t ->
  length (data t') = length (data t) -> pixels t' ≡ₚ pixels t ->
  (normalize_Macenko patch targetImg Io beta alpha b (<[targetImg := t']> σ)).1
  = (normalize_Macenko patch targetImg Io beta alpha b σ).1.
Proof using Hfree.
  intros Hne Hp Ht Hlen Hpix.
  rewrite (normalize_Macenko_run _ _ _ _ _ _ σ p t) by done.
  rewrite (normalize_Macenko_run _ _ _ _ _ _ (<[targetImg := t']> σ) p t');
    [| by rewrite lookup_insert_ne | by rewrite lookup_insert_eq].
  cbn [fst]. apply macenko_Permutation.
  - unfold astype_float, remove_zeros. simpl. by rewrite !length_map.
  - unfold astype_float, remove_zeros, pixels in *. cbn [data].
    rewrite Hlen in Hpix. rewrite !length_map, !reshape2_map.
    by do 2 apply Permutation_map.
Qed.

End OrderFree.

Section Transpose.
Context {F : Type} `{Arith F}.

Lemma nth_col (i j : nat) (X : list (list F)) (r : list F) :
  X !! i = Some r -> nth i (col j X) zero = nth j r zero.
Proof.
  intros Hr. unfold col. by rewrite nth_lookup, list_lookup_fmap, Hr.
Qed.

(** Transposing twice gives back a matrix of three columns. *)
Lemma transpose_transpose (k : nat) (X : list (list F)) :
  has_shape k 3 X -> transpose k (transpose 3 X) = X.
Proof.
  intros [Hk HX]. apply list_eq. intros i. unfold transpose at 1.
  rewrite list_lookup_fmap.
  destruct (decide (i < k)) as [Hi|Hi].
  - rewrite lookup_seq_lt by done. simpl.
    destruct (lookup_lt_is_Some_2 X i) as [r Hr]; [lia|]. rewrite Hr. f_equal.
    rewrite !(nth_col i _ X r Hr).
    eapply Forall_forall in HX; [|by eapply list_elem_of_lookup_2].
    by destruct r as [|a [|b [|c [|]]]].
  - rewrite lookup_seq_ge by lia. simpl. symmetry. apply lookup_ge_None. lia.
Qed.

Lemma ncols_transpose (k : nat) (X : list (list F)) :
  length X = k -> ncols (transpose 3 X) = k.
Proof. intros <-. simpl. apply length_col. Qed.

End Transpose.

Section ReferenceOrder.
Local Open Scope R_scope.

#[local] Instance Rle_transitive : Transitive Rle := Rle_trans.
#[local] Instance Rle_antisymm : AntiSymm (=) Rle := Rle_antisym.
#[local] Instance Rle_total : Total Rle.
Proof. intros x y. destruct (Rle_lt_dec x y); [by left | right; lra]. Qed.

Lemma Rsum_Permutation (l l' : list R) :
  l ≡ₚ l' -> Reference.Rsum l = Reference.Rsum l'.
Proof.
  unfold Reference.Rsum.
  induction 1 as [|x l l' _ IH|x y l|l l' l'' _ IH1 _ IH2]; simpl; lra.
Qed.

Lemma reference_mean_Permutation (j : nat) (X X' : list (list R)) :
  X ≡ₚ X' -> Reference.mean j X = Reference.mean j X'.
Proof.
  intros HX. unfold Reference.mean.
  rewrite (Rsum_Permutation (col j X) (col j X')) by (by apply Permutation_map).
  by rewrite (Permutation_length HX).
Qed.

Lemma reference_cov_Permutation (c : nat) (X X' : list (list R)) :
  X ≡ₚ X' -> Reference.cov c X = Reference.cov c X'.
Proof.
  intros HX. unfold Reference.cov.
  apply map_ext. intros j. apply map_ext. intros l.
  rewrite (Permutation_length HX).
  rewrite !(reference_mean_Permutation _ X X' HX). f_equal.
  apply Rsum_Permutation. by apply Permutation_map.
Qed.

Lemma merge_sort_Rle_Permutation (l l' : list R) :
  l ≡ₚ l' -> merge_sort Rle l = merge_sort Rle l'.
Proof.
  intros Hl. apply (Sorted_unique Rle).
  - apply Sorted_merge_sort. apply _.
  - apply Sorted_merge_sort. apply _.
  - etrans; [apply merge_sort_Permutation|].
    etrans; [exact Hl|]. symmetry. apply merge_sort_Permutation.
Qed.

Lemma reference_percentile_Permutation (l l' : list R) (q : R) :
  l ≡ₚ l' -> Reference.percentile l q = Reference.percentile l' q.
Proof.
  intros Hl. unfold Reference.percentile.
  by rewrite (merge_sort_Rle_Permutation l l' Hl).
Qed.

Lemma reference_lstsq_Permutation (A X X' : list (list R)) (k : nat) :
  has_shape k 3 X -> X ≡ₚ X' ->
  rows_permuted (Reference.lstsq A (transpose 3 X)) (Reference.lstsq A (transpose 3 X')).
Proof.
  intros HX Hperm.
  assert (has_shape k 3 X') as HX'.
  { destruct HX as [Hk Hrows]. split; [by rewrite <- Hperm | by rewrite <- Hperm]. }
  unfold Reference.lstsq.
  destruct A as [|[|a [|b [|c [|]]]] [|[|d [|e [|f [|]]]] [|[|g [|h [|i [|]]]] [|]]]];
    try exact I.
  assert (length (transpose 3 X) = 3%nat) as -> by reflexivity.
  assert (length (transpose 3 X') = 3%nat) as -> by reflexivity.
  cbn [Nat.eqb].
  rewrite (ncols_transpose k X), (ncols_transpose k X') by apply HX || apply HX'.
  rewrite (transpose_transpose k X HX), (transpose_transpose k X' HX').
  unfold rows_permuted, transpose. simpl.
  repeat constructor; by do 2 apply Permutation_map.
Qed.

Lemma reference_order_free : order_free (F := R).
Proof.
  split_and!.
  - apply reference_cov_Permutation.
  - apply reference_percentile_Permutation.
  - intros A X X' k. apply reference_lstsq_Permutation.
Qed.

End ReferenceOrder.

(** A run of the lemma above: the two pixels of the target exchanged. *)
Lemma normalize_Macenko_target_order_witness :
  (normalize_Macenko (F := R) 0 1 255%R 0.15%R 1%R true
     (<[1 := {| shape := [1; 2; 3]; data := [90; 80; 70; 200; 100; 50]%Z |}]>
        two_pixel_store)).1
  = (normalize_Macenko (F := R) 0 1 255%R 0.15%R 1%R true two_pixel_store).1.
Proof.
  apply (normalize_Macenko_target_order (F := R) reference_order_free
           0 1 255%R 0.15%R 1%R true two_pixel_store
           {| shape := [1; 1; 3]; data := [0; 128; 255]%Z |}
           {| shape := [1; 2; 3]; data := [200; 100; 50; 90; 80; 70]%Z |}
           {| shape := [1; 2; 3]; data := [90; 80; 70; 200; 100; 50]%Z |}).
  - lia.
  - reflexivity.
  - reflexivity.
  - reflexivity.
  - apply perm_swap.
Defined.

(** ** An image normalized against itself *)

Section SelfTarget.
Context {F : Type} `{Arith F} `{NumLib F}.

(** When the patch and the target are one and the same array of three
    channels, a call that returns an image has estimated one stain matrix,
    used as source and as target basis, and one 99th-percentile vector, by
    which each concentration row is multiplied and divided. *)
Lemma normalize_Macenko_self_target
    (X : loc) (Io beta alpha : F) (σ : gmap loc ndarray) (x img : ndarray) (h w : nat) :
  σ !! X = Some x -> shape x = [h; w; 3] -> well_formed x ->
  (normalize_Macenko X X Io beta alpha true σ).1 = Ok img ->
  exists HE C maxC P,
    stain_matrix 3 (patch_OD Io h w 3 x) beta alpha = Ok HE /\
    linalg_lstsq HE (transpose 3 (patch_OD Io h w 3 x)) = Some C /\
    max_concentration C = Ok maxC /\
    np_dot HE (rescale C maxC maxC) = Ok P /\
    tidy_up h w 3
      (transpose (ncols (map (map (fun v => mul Io (np_exp (neg v)))) P))
                 (map (map (fun v => mul Io (np_exp (neg v)))) P)) = Ok img.
Proof.
  intros Hx Hs Hwf. rewrite (normalize_Macenko_run _ _ _ _ _ _ σ x x) by done.
  cbn [fst]. rewrite Hs. unfold macenko. cbn [unpack3 bind fst snd].
  set (pf := astype_float (data (remove_zeros x))).
  assert (length pf = h * w * 3) as Hlen.
  { unfold pf, astype_float, remove_zeros. cbn [data]. rewrite !length_map.
    unfold well_formed in Hwf. rewrite Hwf, Hs. simpl. lia. }
  fold (patch_OD Io h w 3 x). change (optical_density Io (reshape2 (h * w) 3 pf))
    with (patch_OD Io h w 3 x).
  intros Hr.
  apply bind_Ok in Hr as (HE & HHE & Hr).
  unfold reshape_rows_of_3 in Hr. rewrite Hlen in Hr.
  rewrite Nat.Div0.mod_mul, Nat.div_mul in Hr by lia. cbn [Nat.eqb bind] in Hr.
  change (optical_density Io (reshape2 (h * w) 3 pf))
    with (patch_OD Io h w 3 x) in Hr.
  rewrite HHE in Hr. cbn [bind] in Hr.
  apply bind_Ok in Hr as (C & HC & Hr).
  apply bind_Ok in Hr as (C' & HC' & Hr).
  apply bind_Ok in Hr as (P & HP & Hr).
  destruct (linalg_lstsq HE _) as [C0|] eqn:Hlstsq; [|discriminate].
  injection HC as ->.
  unfold modify_concentrations in HC'.
  apply bind_Ok in HC' as (maxC & HmaxC & HC').
  rewrite Hlstsq in HC'. cbn [orRaise bind] in HC'.
  rewrite HmaxC in HC'. cbn [bind] in HC'. injection HC' as <-.
  by exists HE, C, maxC, P.
Qed.

End SelfTarget.

(** A run of the lemma above, with the reference library. *)
Lemma normalize_Macenko_self_target_witness :
  exists img HE C maxC P,
    (normalize_Macenko (F := R) 0 0 255%R 0.15%R 1%R true example_store).1 = Ok img /\
    stain_matrix 3
      (patch_OD 255%R 1 1 3 {| shape := [1; 1; 3]; data := [0; 128; 255]%Z |})
      0.15%R 1%R = Ok HE /\
    linalg_lstsq HE
      (transpose 3
         (patch_OD 255%R 1 1 3 {| shape := [1; 1; 3]; data := [0; 128; 255]%Z |}))
      = Some C /\
    max_concentration C = Ok maxC /\
    np_dot HE (rescale C maxC maxC) = Ok P.
Proof.
  destruct (macenko_ok (F := R) 1 1
              (astype_float (data (remove_zeros
                 {| shape := [1; 1; 3]; data := [0; 128; 255]%Z |})))
              (astype_float (data (remove_zeros
                 {| shape := [1; 1; 3]; data := [0; 128; 255]%Z |})))
              255%R 0.15%R 1%R true) as [img Himg].
  - apply reference_lib_shapes.
  - apply reference_solvers_converge.
  - apply reference_percentile_accepts. lra.
  - apply reference_percentile_accepts. simpl. lra.
  - apply reference_percentile_accepts. simpl. lra.
  - reflexivity.
  - reflexivity.
  - assert ((normalize_Macenko (F := R) 0 0 255%R 0.15%R 1%R true example_store).1
            = Ok img) as Hrun.
    { rewrite (normalize_Macenko_run (F := R) 0 0 _ _ _ _ example_store
                 {| shape := [1; 1; 3]; data := [0; 128; 255]%Z |}
                 {| shape := [1; 1; 3]; data := [0; 128; 255]%Z |}) by reflexivity.
      exact Himg. }
    destruct (normalize_Macenko_self_target (F := R) 0 255%R 0.15%R 1%R example_store
                {| shape := [1; 1; 3]; data := [0; 128; 255]%Z |} img 1 1
                eq_refl eq_refl eq_refl Hrun)
      as (HE & C & maxC & P & H1 & H2 & H3 & H4 & _).
    by exists img, HE, C, maxC, P.
Defined.


(** * Further properties of the two functions *)

(** ** Outcomes of a call *)

Section Outcomes.
Context {F : Type} `{Arith F} `{NumLib F}.

(** Passing one array as patch and as target gives the outcome of passing
    two arrays that hold the same samples: the zero replacement written
    through the first argument, and seen through the second, changes
    nothing. *)
Theorem normalize_Macenko_aliasing
    (X P T : loc) (Io beta alpha : F) (b : bool)
    (σ σ' : gmap loc ndarray) (x : ndarray) :
  σ !! X = Some x -> σ' !! P = Some x -> σ' !! T = Some x ->
  (normalize_Macenko X X Io beta alpha b σ).1
  = (normalize_Macenko P T Io beta alpha b σ').1.
Proof.
  intros HX HP HT.
  by rewrite (normalize_Macenko_run _ _ _ _ _ _ σ x x),
             (normalize_Macenko_run _ _ _ _ _ _ σ' x x).
Qed.

(** A call keeps the caller's two arrays valid uint8 arrays of the same
    shape and size, and leaves no zero in them. *)
Theorem normalize_Macenko_buffers_after
    (patch targetImg : loc) (Io beta alpha : F) (b : bool)
    (σ : gmap loc ndarray) (p t : ndarray) :
  σ !! patch = Some p -> σ !! targetImg = Some t ->
  Forall (fun v => (0 <= v <= 255)%Z) (data p) ->
  Forall (fun v => (0 <= v <= 255)%Z) (data t) ->
  let σ' := (normalize_Macenko patch targetImg Io beta alpha b σ).2 in
  exists p' t',
    σ' !! patch = Some p' /\ σ' !! targetImg = Some t' /\
    shape p' = shape p /\ shape t' = shape t /\
    length (data p') = length (data p) /\ length (data t') = length (data t) /\
    Forall (fun v => (1 <= v <= 255)%Z) (data p') /\
    Forall (fun v => (1 <= v <= 255)%Z) (data t').
Proof.
  intros Hp Ht Hrp Hrt.
  rewrite (normalize_Macenko_run _ _ _ _ _ _ σ p t) by done. cbn [snd].
  assert (forall a, Forall (fun v => (0 <= v <= 255)%Z) (data a) ->
            Forall (fun v => (1 <= v <= 255)%Z) (data (remove_zeros a))) as Hrange.
  { intros a Ha. unfold remove_zeros. cbn [data]. apply Forall_fmap.
    eapply Forall_impl; [exact Ha|]. simpl. intros v Hv.
    destruct (Z.eqb_spec v 0); lia. }
  exists (remove_zeros p), (remove_zeros t). split_and!.
  - destruct (decide (patch = targetImg)) as [<-|Hne].
    + rewrite lookup_insert_eq. congruence.
    + by rewrite lookup_insert_ne, lookup_insert_eq.
  - by rewrite lookup_insert_eq.
  - done.
  - done.
  - unfold remove_zeros. cbn [data]. by rewrite length_map.
  - unfold remove_zeros. cbn [data]. by rewrite length_map.
  - by apply Hrange.
  - by apply Hrange.
Qed.

End Outcomes.

(** A run of the theorem on aliasing: [example_store] with its patch as both
    arguments, against [twin_store]. *)
Lemma normalize_Macenko_aliasing_witness :
  (normalize_Macenko (F := R) 0 0 255%R 0.15%R 1%R true example_store).1
  = (normalize_Macenko (F := R) 0 1 255%R 0.15%R 1%R true twin_store).1.
Proof.
  apply (normalize_Macenko_aliasing (F := R) 0 0 1 255%R 0.15%R 1%R true
           example_store twin_store
           {| shape := [1; 1; 3]; data := [0; 128; 255]%Z |}); reflexivity.
Defined.

(** A run of the theorem on the arrays after a call, on [example_store]. *)
Lemma normalize_Macenko_buffers_after_witness :
  let σ' := (normalize_Macenko (F := R) 0 1 255%R 0.15%R 1%R true example_store).2 in
  exists p' t',
    σ' !! 0 = Some p' /\ σ' !! 1 = Some t' /\
    shape p' = [1; 1; 3] /\ shape t' = [1; 1; 3] /\
    length (data p') = 3 /\ length (data t') = 3 /\
    Forall (fun v => (1 <= v <= 255)%Z) (data p') /\
    Forall (fun v => (1 <= v <= 255)%Z) (data t').
Proof.
  apply (normalize_Macenko_buffers_after (F := R) 0 1 255%R 0.15%R 1%R true
           example_store
           {| shape := [1; 1; 3]; data := [0; 128; 255]%Z |}
           {| shape := [1; 1; 3]; data := [200; 100; 50]%Z |}).
  - reflexivity.
  - reflexivity.
  - repeat constructor; simpl; lia.
  - repeat constructor; simpl; lia.
Defined.

(** ** The stain estimation *)

Section SignConvention.
Context {F : Type} `{Arith F}.
Hypothesis negate_negative :
  forall x : F, ltb x zero = true -> ltb (mul x (of_Z (-1))) zero = false.

Lemma item2_negate_col_same (j : nat) (V : list (list F)) (x : F) :
  item2 V 0 j = Ok x -> item2 (negate_col j V) 0 j = Ok (mul x (of_Z (-1))).
Proof.
  unfold item2, item. destruct V as [|r V]; simpl; [discriminate|].
  rewrite list_lookup_alter. destruct (r !! j); simpl; [|discriminate].
  intros [= ->]. by rewrite decide_True.
Qed.

Lemma item2_negate_col_other (i j : nat) (V : list (list F)) :
  i <> j -> item2 (negate_col j V) 0 i = item2 V 0 i.
Proof.
  intros Hij. unfold item2, item. destruct V as [|r V]; simpl; [done|].
  by rewrite list_lookup_alter_ne.
Qed.

Lemma fix_sign_entry (j : nat) (V V' : list (list F)) :
  fix_sign j V = Ok V' ->
  exists x, item2 V' 0 j = Ok x /\ ltb x zero = false.
Proof using negate_negative.
  unfold fix_sign. intros (x & Hx & HV)%bind_Ok. injection HV as <-.
  destruct (ltb x zero) eqn:Hneg.
  - exists (mul x (of_Z (-1))). split; [by apply item2_negate_col_same | auto].
  - by exists x.
Qed.

Lemma fix_sign_other (i j : nat) (V V' : list (list F)) :
  i <> j -> fix_sign j V = Ok V' -> item2 V' 0 i = item2 V 0 i.
Proof.
  intros Hij. unfold fix_sign. intros (x & Hx & HV)%bind_Ok. injection HV as <-.
  destruct (ltb x zero); [by apply item2_negate_col_other | done].
Qed.

(** After the two sign statements of lines 52-53, neither [V[0, 0]] nor
    [V[0, 1]] is negative: the second statement does not undo the first. *)
Theorem eigenvector_signs (V V1 V2 : list (list F)) :
  fix_sign 0 V = Ok V1 -> fix_sign 1 V1 = Ok V2 ->
  exists x y, item2 V2 0 0 = Ok x /\ item2 V2 0 1 = Ok y /\
              ltb x zero = false /\ ltb y zero = false.
Proof using negate_negative.
  intros H0 H1.
  destruct (fix_sign_entry 0 V V1 H0) as (x & Hx & Hxs).
  destruct (fix_sign_entry 1 V1 V2 H1) as (y & Hy & Hys).
  exists x, y. split_and!; try done.
  by rewrite (fix_sign_other 0 1 V1 V2).
Qed.

End SignConvention.

(** A run of the theorem above on a real matrix whose first row is
    negative. *)
Lemma eigenvector_signs_witness :
  exists V1 V2 x y,
    fix_sign 0 [[-1; -2]; [3; 4]; [5; 6]]%R = Ok V1 /\ fix_sign 1 V1 = Ok V2 /\
    item2 V2 0 0 = Ok x /\ item2 V2 0 1 = Ok y /\
    ltb x zero = false /\ ltb y zero = false.
Proof.
  destruct (fix_sign_ok (F := R) 2 2 0 [[-1; -2]; [3; 4]; [5; 6]]%R)
    as (V1 & HV1 & Hs1); [split; [reflexivity | repeat constructor] | lia |].
  destruct (fix_sign_ok (F := R) 2 2 1 V1 Hs1) as (V2 & HV2 & _); [lia|].
  assert (forall x : R, ltb x zero = true -> ltb (mul x (of_Z (-1))) zero = false)
    as Hneg.
  { intros x. simpl. destruct (Rlt_dec x 0); [|discriminate]. intros _.
    destruct (Rlt_dec (x * -1) 0); [lra | done]. }
  destruct (eigenvector_signs (F := R) Hneg _ V1 V2 HV1 HV2)
    as (x & y & Hx & Hy & Hxs & Hys).
  by exists V1, V2, x, y.
Defined.

Section Background.
Context {F : Type} `{Arith F} `{NumLib F}.

(** The stain matrix of an image depends on its foreground samples only:
    rows of optical density with no entry above [beta], before or after the
    others, change neither the matrix nor the failure.  In particular every
    image without foreground has the outcome of the empty image. *)
Theorem stain_matrix_ignores_background
    (c : nat) (OD bg1 bg2 : list (list F)) (beta alpha : F) :
  Forall (fun r => above beta r = false) bg1 ->
  Forall (fun r => above beta r = false) bg2 ->
  stain_matrix c (bg1 ++ OD ++ bg2) beta alpha = stain_matrix c OD beta alpha.
Proof.
  intros H1 H2.
  assert (forall bg, Forall (fun r => above beta r = false) bg ->
                     foreground beta bg = []) as Hbg.
  { intros bg Hb. unfold foreground.
    induction Hb as [|r bg Hr _ IH]; simpl; [done|]. by rewrite Hr. }
  assert (foreground beta (bg1 ++ OD ++ bg2) = foreground beta OD) as Hfg.
  { unfold foreground. rewrite !List.filter_app.
    fold (foreground beta bg1). fold (foreground beta bg2).
    by rewrite (Hbg bg1 H1), (Hbg bg2 H2), app_nil_r. }
  unfold stain_matrix. by rewrite Hfg.
Qed.

End Background.

(** A run of the theorem on background rows: a row of zero optical density
    before the samples, with [beta = 0.15]. *)
Lemma stain_matrix_ignores_background_witness :
  stain_matrix 3 ([[0; 0; 0]] ++ [[1; 2; 3]; [2; 1; 3]] ++ [])%R 0.15%R 1%R
  = stain_matrix 3 [[1; 2; 3]; [2; 1; 3]]%R 0.15%R 1%R.
Proof.
  apply (stain_matrix_ignores_background (F := R) 3
           [[1; 2; 3]; [2; 1; 3]]%R [[0; 0; 0]]%R [] 0.15%R 1%R).
  - repeat constructor. unfold above. simpl.
    destruct (Rlt_dec 0.15 0) as [Hlt|_]; [lra | reflexivity].
  - constructor.
Defined.

(** ** The failures of a call on a patch of three channels *)

Section Failures.
Context {F : Type} `{Arith F} `{NumLib F}.

Lemma stain_matrix_Ok_shape (c : nat) (OD HE : list (list F)) (beta alpha : F) :
  stain_matrix c OD beta alpha = Ok HE -> has_shape 3 3 HE.
Proof.
  unfold stain_matrix. intros Hr.
  do 13 (apply bind_Ok in Hr as (? & _ & Hr)).
  match type of Hr with
  | normalize_columns ?M = _ =>
      assert (has_shape 3 3 M) as HM
        by (destruct (ltb _ _); apply (has_shape_transpose 3 [_; _; _]));
      destruct (normalize_columns_shape 3 3 M HM) as (B & HB & Hshape)
  end.
  rewrite HB in Hr. by injection Hr as <-.
Qed.

(** The stain estimation of a 3-channel image fails only where the
    eigensolver or a percentile fails. *)
Lemma stain_matrix_failure (n : nat) (OD : list (list F)) (beta alpha : F) (e : exn) :
  lib_shapes -> has_shape n 3 OD ->
  stain_matrix 3 OD beta alpha = Raise e ->
  (e = LinAlgError /\ linalg_eigh (np_cov 3 (foreground beta OD)) = None) \/
  (e = ValueError /\
   ((exists l, np_percentile l alpha = None) \/
    (exists l, np_percentile l (sub (of_Z 100) alpha) = None))).
Proof.
  intros (Hcov & Heigh & _) HOD. unfold stain_matrix.
  destruct (linalg_eigh _) as [[ev V]|] eqn:HE;
    [|cbn [orRaise bind]; intros [= <-]; by left].
  cbn [orRaise bind snd].
  assert (has_shape 3 3 V) as HV.
  { apply Heigh in HE. destruct (Hcov 3 (foreground beta OD)) as [Hl _].
    by rewrite Hl in HE. }
  destruct (take_cols_2_1_ok 3 3 V HV) as (V1 & -> & HV1); [lia|]. cbn [bind].
  destruct (fix_sign_ok 2 2 0 V1 HV1) as (V2 & -> & HV2); [lia|]. cbn [bind].
  destruct (fix_sign_ok 2 2 1 V2 HV2) as (V3 & -> & HV3); [lia|]. cbn [bind].
  destruct (np_dot_ok (foreground beta OD) V3) as (That & -> & HThat).
  { destruct HV3 as [-> _]. destruct HOD as [_ HOD].
    apply Forall_forall. intros r Hr%list_elem_of_In%filter_In.
    destruct Hr as [Hr%list_elem_of_In _]. by eapply Forall_forall in HOD. }
  cbn [bind]. rewrite (has_shape_ncols 3 2 V3) in HThat by (done || lia).
  destruct (angles_ok _ That HThat) as [phi ->]. cbn [bind].
  destruct (np_percentile phi alpha) as [minPhi|] eqn:Hmin;
    [|cbn [orRaise bind]; intros [= <-]; right; split; [done | left; eauto]].
  destruct (np_percentile phi (sub (of_Z 100) alpha)) as [maxPhi|] eqn:Hmax;
    [|cbn [orRaise bind]; intros [= <-]; right; split; [done | right; eauto]].
  cbn [orRaise bind].
  destruct (np_dot_vec_ok 3 2 V3 [np_cos minPhi; np_sin minPhi] HV3)
    as (v1 & -> & Hv1); [done|].
  destruct (np_dot_vec_ok 3 2 V3 [np_cos maxPhi; np_sin maxPhi] HV3)
    as (v2 & -> & Hv2); [done|].
  cbn [bind].
  destruct (np_cross_ok v1 v2 Hv1 Hv2) as (v3 & -> & Hv3). cbn [bind].
  unfold item.
  destruct (lookup_lt_is_Some_2 v1 0) as [a ->]; [lia|].
  destruct (lookup_lt_is_Some_2 v2 0) as [b ->]; [lia|].
  cbn [orRaise bind]. unfold normalize_columns. discriminate.
Qed.

Lemma max_concentration_failure (n : nat) (C : list (list F)) (e : exn) :
  has_shape 3 n C -> max_concentration C = Raise e ->
  e = ValueError /\ exists l, np_percentile l (of_Z 99) = None.
Proof.
  intros [HC _]. unfold max_concentration. intros Hr.
  apply bind_Raise in Hr as [(r & Hr)%mapM_Raise|(m & Hm & Hr)].
  - destruct (np_percentile r (of_Z 99)) eqn:Hp; [discriminate|].
    injection Hr as <-. eauto.
  - apply mapM_Ok_length in Hm. rewrite Hm, HC in Hr. discriminate.
Qed.

Lemma modify_concentrations_Ok_shape (n : nat) (C HE_target OD_target C' : list (list F)) :
  has_shape 3 n C -> modify_concentrations C HE_target OD_target = Ok C' ->
  has_shape 3 n C'.
Proof.
  intros HC. unfold modify_concentrations. intros Hr.
  apply bind_Ok in Hr as (m & Hm & Hr).
  apply bind_Ok in Hr as (Ct & _ & Hr).
  apply bind_Ok in Hr as (mt & Hmt & Hr). injection Hr as <-.
  apply max_concentration_Ok in Hm as (_ & Hm & _).
  apply max_concentration_Ok in Hmt as (_ & Hmt & _).
  by apply has_shape_rescale.
Qed.

Lemma modify_concentrations_failure (n k : nat) (C HE_target OD_target : list (list F))
    (e : exn) :
  lib_shapes -> has_shape 3 n C -> has_shape 3 3 HE_target -> has_shape k 3 OD_target ->
  modify_concentrations C HE_target OD_target = Raise e ->
  (e = LinAlgError /\ linalg_lstsq HE_target (transpose 3 OD_target) = None) \/
  (e = ValueError /\ exists l, np_percentile l (of_Z 99) = None).
Proof.
  intros (_ & _ & Hlstsq) HC HHE HOD. unfold modify_concentrations. intros Hr.
  apply bind_Raise in Hr as [Hr|(m & _ & Hr)];
    [right; exact (max_concentration_failure n C e HC Hr)|].
  destruct (linalg_lstsq HE_target (transpose 3 OD_target)) as [Ct|] eqn:HCt;
    [|cbn [orRaise bind] in Hr; injection Hr as <-; by left].
  cbn [orRaise bind] in Hr.
  pose proof (has_shape_transpose 3 OD_target) as HY.
  apply (Hlstsq _ _ _ _ _ HHE HY) in HCt.
  apply bind_Raise in Hr as [Hr|(mt & _ & Hr)]; [|discriminate].
  right. exact (max_concentration_failure _ Ct e HCt Hr).
Qed.

(** The reconstruction and the final reshape succeed on concentrations of
    the shape of the patch. *)
Lemma reconstruct_ok (h w : nat) (Io : F) (HE_target C : list (list F)) :
  has_shape 3 3 HE_target -> has_shape 3 (h * w) C ->
  is_Ok (let* P := np_dot HE_target C in
         tidy_up h w 3
           (transpose (ncols (map (map (fun x => mul Io (np_exp (neg x)))) P))
                      (map (map (fun x => mul Io (np_exp (neg x)))) P))).
Proof.
  intros HHE HC.
  destruct (np_dot_ok HE_target C) as (P & -> & HP).
  { destruct HC as [-> _]. by destruct HHE as [_ ?]. }
  cbn [bind]. rewrite (has_shape_ncols 3 (h * w) C) in HP by (done || lia).
  destruct HHE as [HHE _]. rewrite HHE in HP.
  set (Inorm := map (map (fun x => mul Io (np_exp (neg x)))) P).
  assert (has_shape 3 (h * w) Inorm) as HI.
  { apply has_shape_map; [done|]. intros r Hr. by rewrite length_map. }
  rewrite (has_shape_ncols 3 (h * w) Inorm) by (done || lia).
  unfold tidy_up.
  pose proof (has_shape_transpose (h * w) Inorm) as HT.
  destruct HI as [HI _]. rewrite HI in HT.
  rewrite (length_concat_shape _ _ _ HT), Nat.eqb_refl. by eexists.
Qed.

(** With a library that returns arrays of the documented shapes, a call on a
    well-formed patch of three channels never ends with [IndexError]: it
    fails only with [LinAlgError], when [np.linalg.eigh] or [np.linalg.lstsq]
    fails, or with [ValueError], when the samples of the target are not a
    multiple of three or [np.percentile] refuses [alpha], [100 - alpha] or
    99. *)
Theorem normalize_Macenko_failures
    (patch targetImg : loc) (Io beta alpha : F) (b : bool)
    (σ : gmap loc ndarray) (p t : ndarray) (h w : nat) (e : exn) :
  lib_shapes ->
  σ !! patch = Some p -> σ !! targetImg = Some t ->
  shape p = [h; w; 3] -> well_formed p ->
  (normalize_Macenko patch targetImg Io beta alpha b σ).1 = Raise e ->
  (e = LinAlgError /\
   ((exists A, linalg_eigh A = None) \/ (exists A B, linalg_lstsq A B = None))) \/
  (e = ValueError /\
   (length (data t) mod 3 <> 0 \/
    (exists l, np_percentile l alpha = None) \/
    (exists l, np_percentile l (sub (of_Z 100) alpha) = None) \/
    (exists l, np_percentile l (of_Z 99) = None))).
Proof.
  intros Hlib Hp Ht Hs Hwf.
  rewrite (normalize_Macenko_run _ _ _ _ _ _ σ p t) by done. cbn [fst].
  rewrite Hs. unfold macenko. cbn [unpack3 bind fst snd].
  set (pf := astype_float (data (remove_zeros p))).
  set (tf := astype_float (data (remove_zeros t))).
  assert (length pf = h * w * 3) as Hlen.
  { unfold pf, astype_float, remove_zeros. cbn [data]. rewrite !length_map.
    unfold well_formed in Hwf. rewrite Hwf, Hs. simpl. lia. }
  assert (length tf = length (data t)) as Hlent.
  { unfold tf, astype_float, remove_zeros. cbn [data]. by rewrite !length_map. }
  set (OD := optical_density Io (reshape2 (h * w) 3 pf)).
  assert (has_shape (h * w) 3 OD) as HOD.
  { apply has_shape_optical_density, has_shape_reshape2. lia. }
  destruct (stain_matrix 3 OD beta alpha) as [HE|e0] eqn:HHE.
  2:{ cbn [bind]. intros [= <-].
      apply (stain_matrix_failure _ _ _ _ _ Hlib HOD) in HHE
        as [[-> HN]|[-> [HN|HN]]]; [left | right..]; split; eauto. }
  cbn [bind]. apply stain_matrix_Ok_shape in HHE.
  unfold reshape_rows_of_3.
  destruct (Nat.eqb_spec (length tf mod 3) 0) as [Hmod|Hmod].
  2:{ cbn [bind]. intros [= <-]. right. split; [done|]. left. by rewrite <- Hlent. }
  cbn [bind].
  set (OD_t := optical_density Io (reshape2 (length tf / 3) 3 tf)).
  assert (has_shape (length tf / 3) 3 OD_t) as HOD_t.
  { apply has_shape_optical_density, has_shape_reshape2.
    pose proof (Nat.div_mod_eq (length tf) 3). lia. }
  destruct (stain_matrix 3 OD_t beta alpha) as [HE_t|e0] eqn:HHE_t.
  2:{ cbn [bind]. intros [= <-].
      apply (stain_matrix_failure _ _ _ _ _ Hlib HOD_t) in HHE_t
        as [[-> HN]|[-> [HN|HN]]]; [left | right..]; split; eauto. }
  cbn [bind]. apply stain_matrix_Ok_shape in HHE_t.
  pose proof (has_shape_transpose 3 OD) as HY.
  destruct HOD as [HODn HODr]. rewrite HODn in HY.
  destruct (linalg_lstsq HE (transpose 3 OD)) as [C|] eqn:HC.
  2:{ cbn [orRaise bind]. intros [= <-]. left. split; [done|]. right. eauto. }
  cbn [orRaise bind].
  pose proof Hlib as (_ & _ & Hlstsq). apply (Hlstsq _ _ _ _ _ HHE HY) in HC.
  destruct (if b then modify_concentrations C HE_t OD_t else Ok C)
    as [C'|e0] eqn:HC'.
  2:{ cbn [bind]. intros [= <-]. destruct b; [|discriminate].
      apply (modify_concentrations_failure _ _ _ _ _ _ Hlib HC HHE_t HOD_t) in HC'
        as [[-> HN]|[-> HN]]; [left | right]; split; eauto 6. }
  cbn [bind].
  assert (has_shape 3 (h * w) C') as HCs.
  { destruct b; [by eapply modify_concentrations_Ok_shape | by injection HC' as <-]. }
  destruct (reconstruct_ok h w Io HE_t C' HHE_t HCs) as [img ->]. discriminate.
Qed.

End Failures.

(** A run of the theorem above on [ragged_store], whose target has four
    samples. *)
Lemma normalize_Macenko_failures_witness :
  exists e,
    (normalize_Macenko (F := R) 0 1 255%R 0.15%R 1%R true ragged_store).1 = Raise e /\
    ((e = LinAlgError /\
      ((exists A, linalg_eigh (F := R) A = None) \/
       (exists A B, linalg_lstsq (F := R) A B = None))) \/
     (e = ValueError /\
      (length [200; 100; 50; 90]%Z mod 3 <> 0 \/
       (exists l, np_percentile l 1%R = None) \/
       (exists l, np_percentile l (sub (of_Z 100) 1%R) = None) \/
       (exists l, np_percentile (F := R) l (of_Z 99) = None)))).
Proof.
  destruct (macenko_target_rows (F := R) [1; 1; 3]
              (astype_float (data (remove_zeros
                 {| shape := [1; 1; 3]; data := [0; 128; 255]%Z |})))
              (astype_float (data (remove_zeros
                 {| shape := [2; 2]; data := [200; 100; 50; 90]%Z |})))
              255%R 0.15%R 1%R true) as (e & He & _).
  { simpl. lia. }
  assert ((normalize_Macenko (F := R) 0 1 255%R 0.15%R 1%R true ragged_store).1
          = Raise e) as Hrun.
  { rewrite (normalize_Macenko_run (F := R) 0 1 _ _ _ _ ragged_store
               {| shape := [1; 1; 3]; data := [0; 128; 255]%Z |}
               {| shape := [2; 2]; data := [200; 100; 50; 90]%Z |}) by reflexivity.
    exact He. }
  exists e. split; [exact Hrun|].
  exact (normalize_Macenko_failures (F := R) 0 1 255%R 0.15%R 1%R true ragged_store
           {| shape := [1; 1; 3]; data := [0; 128; 255]%Z |}
           {| shape := [2; 2]; data := [200; 100; 50; 90]%Z |} 1 1 e
           reference_lib_shapes eq_refl eq_refl eq_refl eq_refl Hrun).
Defined.

(** ** What a call reads of its two images *)

Lemma reshape2_app {A : Type} (n m c : nat) (a b : list A) :
  length a = n * c ->
  reshape2 (n + m) c (a ++ b) = reshape2 n c a ++ reshape2 m c b.
Proof.
  intros Ha. unfold reshape2. rewrite seq_app, map_app. f_equal.
  - apply map_ext_in. intros i Hi%in_seq.
    rewrite drop_app_le by nia. rewrite take_app_le; [done|].
    rewrite length_drop. nia.
  - simpl. replace (seq n m) with (Nat.add n <$> seq 0 m)
      by (rewrite fmap_add_seq; f_equal; lia).
    rewrite <- list_fmap_compose. apply map_ext. intros i. simpl.
    rewrite drop_app_ge by nia. do 2 f_equal. nia.
Qed.

Section Reads.
Context {F : Type} `{Arith F} `{NumLib F}.

Lemma stain_matrix_foreground (c : nat) (OD OD' : list (list F)) (beta alpha : F) :
  foreground beta OD' = foreground beta OD ->
  stain_matrix c OD' beta alpha = stain_matrix c OD beta alpha.
Proof. intros Hfg. unfold stain_matrix. by rewrite Hfg. Qed.

(** Without intensity normalization the target is read through its
    foreground pixels only: appending to its buffer pixels that have no
    optical density above [beta] changes nothing in the outcome of a call. *)
Theorem target_background_ignored
    (patch targetImg : loc) (Io beta alpha : F)
    (σ : gmap loc ndarray) (p t g : ndarray) (s' : list nat) :
  patch <> targetImg ->
  σ !! patch = Some p -> σ !! targetImg = Some t ->
  length (data t) mod 3 = 0 -> length (data g) mod 3 = 0 ->
  foreground beta
    (optical_density Io
       (reshape2 (length (data g) / 3) 3 (astype_float (data (remove_zeros g))))) = [] ->
  (normalize_Macenko patch targetImg Io beta alpha false
     (<[targetImg := {| shape := s'; data := data t ++ data g |}]> σ)).1
  = (normalize_Macenko patch targetImg Io beta alpha false σ).1.
Proof.
  intros Hne Hp Ht Hmt Hmg Hbg.
  rewrite (normalize_Macenko_run _ _ _ _ _ _ σ p t) by done.
  rewrite (normalize_Macenko_run _ _ _ _ _ _ _ p
             {| shape := s'; data := data t ++ data g |});
    [| by rewrite lookup_insert_ne | by rewrite lookup_insert_eq].
  cbn [fst]. unfold macenko.
  destruct (unpack3 (shape p)) as [[[h w] c]|e]; [|done]. cbn [bind fst snd].
  destruct (stain_matrix c _ beta alpha) as [HE|e]; [|done]. cbn [bind].
  set (tf := astype_float (data (remove_zeros t))).
  set (gf := astype_float (data (remove_zeros g))) in *.
  assert (astype_float (data (remove_zeros {| shape := s'; data := data t ++ data g |}))
          = tf ++ gf) as ->.
  { unfold tf, gf, astype_float, remove_zeros. cbn [data]. by rewrite !map_app. }
  assert (length tf = length (data t)) as Hlt.
  { unfold tf, astype_float, remove_zeros. cbn [data]. by rewrite !length_map. }
  assert (length gf = length (data g)) as Hlg.
  { unfold gf, astype_float, remove_zeros. cbn [data]. by rewrite !length_map. }
  pose proof (Nat.div_mod_eq (length tf) 3) as Hdt.
  pose proof (Nat.div_mod_eq (length gf) 3) as Hdg.
  unfold reshape_rows_of_3. rewrite length_app.
  assert ((length tf + length gf) mod 3 = 0) as ->.
  { rewrite Nat.Div0.add_mod, Hlt, Hlg, Hmt, Hmg. done. }
  assert (length tf mod 3 = 0) as Hmt' by (by rewrite Hlt).
  assert (length gf mod 3 = 0) as Hmg' by (by rewrite Hlg).
  rewrite Hmt'. cbn [Nat.eqb bind].
  assert ((length tf + length gf) / 3 = length tf / 3 + length gf / 3) as ->.
  { symmetry. apply Nat.div_unique with 0; lia. }
  rewrite (reshape2_app (length tf / 3) (length gf / 3) 3 tf gf) by lia.
  rewrite (stain_matrix_foreground 3
             (optical_density Io (reshape2 (length tf / 3) 3 tf))
             (optical_density Io (reshape2 (length tf / 3) 3 tf
                                  ++ reshape2 (length gf / 3) 3 gf))); [done|].
  unfold optical_density, foreground in *. rewrite map_app, List.filter_app.
  rewrite Hlg. rewrite Hbg. by rewrite app_nil_r.
Qed.

Lemma tidy_up_layout (h w h' w' c : nat) (I : list (list F)) :
  h' * w' = h * w ->
  (forall img, tidy_up h w c I = Ok img ->
     tidy_up h' w' c I = Ok {| shape := [h'; w'; c]; data := data img |}) /\
  (forall e, tidy_up h w c I = Raise e -> tidy_up h' w' c I = Raise e).
Proof.
  intros Hhw. unfold tidy_up. rewrite Hhw.
  destruct (Nat.eqb _ _); split; intros x; try discriminate.
  - by intros [= <-].
  - done.
Qed.

(** The samples of the returned image do not depend on how the pixels of the
    patch are laid out in rows and columns: a patch given with another
    height and width for the same pixels gives the same samples (in the new
    layout), or the same exception. *)
Theorem patch_layout_irrelevant
    (patch targetImg : loc) (Io beta alpha : F) (b : bool)
    (σ : gmap loc ndarray) (p t : ndarray) (h w h' w' c : nat) :
  patch <> targetImg ->
  σ !! patch = Some p -> σ !! targetImg = Some t ->
  shape p = [h; w; c] -> h' * w' = h * w ->
  let r := (normalize_Macenko patch targetImg Io beta alpha b σ).1 in
  let r' := (normalize_Macenko patch targetImg Io beta alpha b
               (<[patch := {| shape := [h'; w'; c]; data := data p |}]> σ)).1 in
  (forall img, r = Ok img -> r' = Ok {| shape := [h'; w'; c]; data := data img |}) /\
  (forall e, r = Raise e -> r' = Raise e).
Proof.
  intros Hne Hp Ht Hs Hhw r r'. subst r r'.
  rewrite (normalize_Macenko_run _ _ _ _ _ _ σ p t) by done.
  rewrite (normalize_Macenko_run _ _ _ _ _ _ _
             {| shape := [h'; w'; c]; data := data p |} t);
    [| by rewrite lookup_insert_eq | by rewrite lookup_insert_ne].
  cbn [fst shape]. rewrite Hs.
  assert (data (remove_zeros {| shape := [h'; w'; c]; data := data p |})
          = data (remove_zeros p)) as -> by done.
  unfold macenko. cbn [unpack3 bind fst snd]. rewrite Hhw.
  destruct (stain_matrix c _ beta alpha) as [HE|e]; [|split; [discriminate|done]].
  cbn [bind].
  destruct (reshape_rows_of_3 _) as [T|e]; [|split; [discriminate|done]].
  cbn [bind].
  destruct (stain_matrix 3 _ beta alpha) as [HE_t|e]; [|split; [discriminate|done]].
  cbn [bind].
  destruct (orRaise LinAlgError _) as [C|e]; [|split; [discriminate|done]].
  cbn [bind].
  destruct (if b then _ else _) as [C'|e]; [|split; [discriminate|done]].
  cbn [bind].
  destruct (np_dot HE_t C') as [P|e]; [|split; [discriminate|done]].
  cbn [bind]. by apply tidy_up_layout.
Qed.

End Reads.

(** A run of the theorem on the background of the target: one white pixel
    appended to the target of [example_store]. *)
Lemma target_background_ignored_witness :
  (normalize_Macenko (F := R) 0 1 255%R 0.15%R 1%R false
     (<[1 := {| shape := [1; 2; 3];
                data := [200; 100; 50]%Z ++ [255; 255; 255]%Z |}]> example_store)).1
  = (normalize_Macenko (F := R) 0 1 255%R 0.15%R 1%R false example_store).1.
Proof.
  apply (target_background_ignored (F := R) 0 1 255%R 0.15%R 1%R example_store
           {| shape := [1; 1; 3]; data := [0; 128; 255]%Z |}
           {| shape := [1; 1; 3]; data := [200; 100; 50]%Z |}
           {| shape := [1; 1; 3]; data := [255; 255; 255]%Z |} [1; 2; 3]).
  - lia.
  - reflexivity.
  - reflexivity.
  - reflexivity.
  - reflexivity.
  - exact white_patch_no_foreground.
Defined.

(** A run of the theorem on the layout of the patch: the 1 by 2 patch of a
    store given as 2 by 1. *)
Lemma patch_layout_irrelevant_witness :
  let σ := <[0 := {| shape := [1; 2; 3]; data := [200; 100; 50; 90; 80; 70]%Z |}]>
             example_store in
  let r := (normalize_Macenko (F := R) 0 1 255%R 0.15%R 1%R true σ).1 in
  let r' := (normalize_Macenko (F := R) 0 1 255%R 0.15%R 1%R true
               (<[0 := {| shape := [2; 1; 3];
                          data := [200; 100; 50; 90; 80; 70]%Z |}]> σ)).1 in
  (forall img, r = Ok img -> r' = Ok {| shape := [2; 1; 3]; data := data img |}) /\
  (forall e, r = Raise e -> r' = Raise e).
Proof.
  apply (patch_layout_irrelevant (F := R) 0 1 255%R 0.15%R 1%R true
           (<[0 := {| shape := [1; 2; 3]; data := [200; 100; 50; 90; 80; 70]%Z |}]>
              example_store)
           {| shape := [1; 2; 3]; data := [200; 100; 50; 90; 80; 70]%Z |}
           {| shape := [1; 1; 3]; data := [200; 100; 50]%Z |} 1 2 2 1 3).
  - lia.
  - reflexivity.
  - reflexivity.
  - reflexivity.
  - reflexivity.
Defined.
